(** * Map-Reduce over electronic health records: a shallow embedding of Code.go

    The development follows the layout of the Go source: the record parser
    ([ParseEHR]), the intermediate line format ([Fprintf]/[Sscanf] with the
    format [%v %v]), the map and reduce tasks over a file system, the master
    with its two task channels and its [done] channel, and the phase runner
    of [main].

    Conventions of the embedding.
    - A Go [string] is the list of its Unicode code points (numbers of
      type [N]); the text handled is taken to be valid UTF-8, and its lines
      to fit the buffer of [bufio.Scanner].
    - A Go [int] is a 64-bit signed integer, carried as a [Z] with the
      wrap-around written out ([wrap64]).
    - A Go [map[string]int] is a [gmap (list N) Z]; the order in which
      [range] visits it is not fixed by the language and is a parameter
      ([range_order]) constrained to be a permutation.
    - A run-time panic is a value of [outcome]; an [error] that a task sends
      on its result channel is a value of [error].
    - The goroutines of a phase run one after the other, each as one step,
      in an order that is a parameter ([schedule]); the goroutines around
      the [done] channel are a transition system of their own. *)

From Stdlib Require Import ZArith Lia String Ascii.
From stdpp Require Import gmap list fin_maps sorting.

Open Scope Z_scope.

(** ** Strings *)

(** The code points of an ASCII literal. *)
Fixpoint runes (s : string) : list N :=
  match s with
  | EmptyString => []
  | String c s' => N_of_ascii c :: runes s'
  end.

(** [unicode.IsSpace]: the code points with the White_Space property. *)
Definition isSpace (r : N) : bool :=
  ((9 <=? r) && (r <=? 13) || (r =? 32) || (r =? 133) || (r =? 160)
   || (r =? 5760) || (8192 <=? r) && (r <=? 8202) || (r =? 8232)
   || (r =? 8233) || (r =? 8239) || (r =? 8287) || (r =? 12288))%N.

(** [strings.Fields]: the maximal runs of non-space code points, in order.
    [cur] is the field being read, most recent code point first. *)
Fixpoint fields_from (cur : list N) (s : list N) : list (list N) :=
  match s with
  | [] => match cur with [] => [] | _ => [rev cur] end
  | r :: s' =>
      if isSpace r then
        match cur with
        | [] => fields_from [] s'
        | _ => rev cur :: fields_from [] s'
        end
      else fields_from (r :: cur) s'
  end.

Definition Fields (line : list N) : list (list N) := fields_from [] line.

(** ** Panics and results *)

Inductive panic : Type :=
  | IndexOutOfRange (index len : nat)
  | MakechanSizeOutOfRange.

(** What running a piece of code comes to: it returns, it panics, or it
    blocks for good on a channel operation. *)
Inductive outcome (A : Type) : Type :=
  | Ret (a : A)
  | Panic (p : panic)
  | Block.
Arguments Ret {A} a.
Arguments Panic {A} p.
Arguments Block {A}.

Definition bind {A B} (x : outcome A) (k : A -> outcome B) : outcome B :=
  match x with
  | Ret a => k a
  | Panic p => Panic p
  | Block => Block
  end.

Notation "'let*' x ':=' e 'in' k" := (bind e (fun x => k))
  (at level 10, x name, e at level 100, k at level 200).

(** [s[i]] on a slice: bounds-checked, panics out of range. *)
Definition index {A} (s : list A) (i : nat) : outcome A :=
  match s !! i with
  | Some x => Ret x
  | None => Panic (IndexOutOfRange i (length s))
  end.

(** ** The record parser *)

Record EHR : Type := mkEHR {
  PatientID : list N;
  Name : list N;
  Age : list N;
  Diagnosis : list N;
  Treatment : list N
}.

(** [ParseEHR]: the operands of the composite literal are evaluated in
    source order, so the first index that is out of range is the one that
    panics. *)
Definition ParseEHR (line : list N) : outcome EHR :=
  let fields := Fields line in
  let* f0 := index fields 0 in
  let* f1 := index fields 1 in
  let* f2 := index fields 2 in
  let* f3 := index fields 3 in
  let* f4 := index fields 4 in
  let* f5 := index fields 5 in
  Ret {| PatientID := f0;
         Name := f1 ++ runes " " ++ f2;
         Age := f3;
         Diagnosis := f4;
         Treatment := f5 |}.

(** ** Integers and their decimal form *)

Definition wrap64 (z : Z) : Z := (z + 2 ^ 63) mod 2 ^ 64 - 2 ^ 63.

Definition int64_range (z : Z) : Prop := - 2 ^ 63 <= z < 2 ^ 63.

(** The decimal digits of [n], most significant first, pushed before [acc]
    ([strconv.FormatInt] fills its buffer from the right in the same way). *)
Fixpoint digits_from (fuel : nat) (n : N) (acc : list N) : list N :=
  match fuel with
  | O => acc
  | S f =>
      let acc' := (48 + n mod 10)%N :: acc in
      if (n / 10 =? 0)%N then acc' else digits_from f (n / 10) acc'
  end.

Definition decimal (n : N) : list N :=
  digits_from (S (N.to_nat (N.log2 n))) n [].

(** [%v] (and [%d]) of an [int]. *)
Definition FormatInt (z : Z) : list N :=
  if z <? 0 then 45%N :: decimal (Z.to_N (- z)) else decimal (Z.to_N z).

(** [fmt.Sprintf("%v %v\n", key, count)]. *)
Definition Sprintf_entry (key : list N) (count : Z) : list N :=
  key ++ runes " " ++ FormatInt count ++ [10%N].

(** [fmt.Sprintf("map-diagnosis-%s-%d.txt", filename, task)] and its
    treatment twin. *)
Definition diagnosis_filename (filename : list N) (task : Z) : list N :=
  runes "map-diagnosis-" ++ filename ++ runes "-" ++ FormatInt task ++ runes ".txt".

Definition treatment_filename (filename : list N) (task : Z) : list N :=
  runes "map-treatment-" ++ filename ++ runes "-" ++ FormatInt task ++ runes ".txt".

Definition is_digit (c : N) : bool := ((48 <=? c) && (c <=? 57))%N.

(** ** Scanning: [fmt.Sscanf(line, "%v %v", &value, &count)] *)

Inductive scan_error : Type :=
  | ErrNewline          (* a newline where the format has none *)
  | ErrEOF              (* the input ended before the operand *)
  | ErrExpectedInteger  (* no digit where the integer should start *)
  | ErrParseInt.        (* strconv.ParseInt rejected the token *)

(** [ss.SkipSpace] of a scan whose newlines are not spaces. *)
Fixpoint SkipSpace (s : list N) : scan_error + list N :=
  match s with
  | [] => inr []
  | r :: s' =>
      if (r =? 10)%N then inl ErrNewline
      else if isSpace r then SkipSpace s'
      else inr s
  end.

(** [ss.token(_, notSpace)]: the word at the head of the input. *)
Fixpoint token (s : list N) : list N * list N :=
  match s with
  | [] => ([], [])
  | r :: s' =>
      if isSpace r then ([], s)
      else let '(t, rest) := token s' in (r :: t, rest)
  end.

Definition in_set (ok : list N) (r : N) : bool := existsb (N.eqb r) ok.

(** [ss.accept]: consume one code point if it is in [ok]. *)
Definition accept (ok : list N) (s : list N) : list N * list N :=
  match s with
  | r :: s' => if in_set ok r then ([r], s') else ([], s)
  | [] => ([], [])
  end.

(** The loop [for s.accept(digits) {}]. *)
Fixpoint accept_all (ok : list N) (s : list N) : list N * list N :=
  match s with
  | r :: s' =>
      if in_set ok r then let '(t, rest) := accept_all ok s' in (r :: t, rest)
      else ([], s)
  | [] => ([], [])
  end.

Definition binaryDigits := runes "01".
Definition octalDigits := runes "01234567".
Definition decimalDigits := runes "0123456789".
Definition hexadecimalDigits := runes "0123456789aAbBcCdDeEfF".

(** [ss.scanBasePrefix]: the consumed prefix, the digit set that
    follows, whether a digit (the leading zero) was seen, the rest. *)
Definition scanBasePrefix (s : list N) : list N * list N * bool * list N :=
  match s with
  | c0 :: s1 =>
      if (c0 =? 48)%N then
        match s1 with
        | c :: s2 =>
            if in_set (runes "bB") c then ([c0; c], binaryDigits ++ runes "_", true, s2)
            else if in_set (runes "oO") c then ([c0; c], octalDigits ++ runes "_", true, s2)
            else if in_set (runes "xX") c then ([c0; c], hexadecimalDigits ++ runes "_", true, s2)
            else ([c0], octalDigits ++ runes "_", true, s1)
        | [] => ([c0], octalDigits ++ runes "_", true, s1)
        end
      else ([], decimalDigits ++ runes "_", false, s)
  | [] => ([], decimalDigits ++ runes "_", false, s)
  end.

(** [ss.scanNumber]. *)
Definition scanNumber (digits : list N) (haveDigits : bool) (s : list N)
  : scan_error + (list N * list N) :=
  if haveDigits then inr (accept_all digits s)
  else
    match s with
    | [] => inl ErrEOF
    | r :: s' =>
        if in_set digits r then
          let '(t, rest) := accept_all digits s' in inr (r :: t, rest)
        else inl ErrExpectedInteger
    end.

(** *** [strconv.ParseInt(tok, 0, 64)] *)

Definition lower (c : N) : N := N.lor c 32.

Definition digit_val (c : N) : option N :=
  if ((48 <=? c) && (c <=? 57))%N then Some (c - 48)%N
  else if ((97 <=? lower c) && (lower c <=? 122))%N then Some (lower c - 97 + 10)%N
  else None.

(** The digit loop of [ParseUint] for base 0, on unbounded numbers; the
    range is checked by the caller. *)
Fixpoint parse_digits (base : N) (s : list N) (n : N) : option N :=
  match s with
  | [] => Some n
  | c :: s' =>
      if (c =? 95)%N then parse_digits base s' n
      else
        match digit_val c with
        | Some d => if (d <? base)%N then parse_digits base s' (n * base + d)%N else None
        | None => None
        end
  end.

Inductive saw : Type := SawStart | SawDigit | SawUnderscore | SawOther.

Fixpoint underscoreOK_from (hex : bool) (sw : saw) (s : list N) : bool :=
  match s with
  | [] => match sw with SawUnderscore => false | _ => true end
  | c :: s' =>
      if ((48 <=? c) && (c <=? 57) || hex && (97 <=? lower c) && (lower c <=? 102))%N
      then underscoreOK_from hex SawDigit s'
      else if (c =? 95)%N then
        match sw with
        | SawDigit => underscoreOK_from hex SawUnderscore s'
        | _ => false
        end
      else
        match sw with
        | SawUnderscore => false
        | _ => underscoreOK_from hex SawOther s'
        end
  end.

Definition underscoreOK (s : list N) : bool :=
  let s :=
    match s with
    | c :: s' => if ((c =? 45) || (c =? 43))%N then s' else s
    | [] => s
    end in
  match s with
  | c0 :: c :: s' =>
      if ((c0 =? 48) && ((lower c =? 98) || (lower c =? 111) || (lower c =? 120)))%N
      then underscoreOK_from (lower c =? 120)%N SawDigit s'
      else underscoreOK_from false SawStart s
  | _ => underscoreOK_from false SawStart s
  end.

Definition ParseUint0 (s : list N) : option N :=
  match s with
  | [] => None
  | c0 :: r1 =>
      let '(base, body) :=
        if (c0 =? 48)%N then
          match r1 with
          | c1 :: ((_ :: _) as r2) =>
              if (lower c1 =? 98)%N then (2%N, r2)
              else if (lower c1 =? 111)%N then (8%N, r2)
              else if (lower c1 =? 120)%N then (16%N, r2)
              else (8%N, r1)
          | _ => (8%N, r1)
          end
        else (10%N, s) in
      match parse_digits base body 0 with
      | Some n =>
          if in_set body 95%N && negb (underscoreOK s) then None
          else if (n <? 2 ^ 64)%N then Some n else None
      | None => None
      end
  end.

Definition ParseInt0 (s : list N) : option Z :=
  match s with
  | [] => None
  | c :: s' =>
      let '(neg, u) :=
        if (c =? 43)%N then (false, s')
        else if (c =? 45)%N then (true, s')
        else (false, s) in
      match ParseUint0 u with
      | None => None
      | Some un =>
          if neg then (if (un <=? 2 ^ 63)%N then Some (- Z.of_N un) else None)
          else (if (un <? 2 ^ 63)%N then Some (Z.of_N un) else None)
      end
  end.

(** [ss.scanInt('v', 64)], entered after the leading spaces are gone. *)
Definition scanInt (s : list N) : scan_error + (Z * list N) :=
  match s with
  | [] => inl ErrEOF
  | _ =>
      let '(sign, s1) := accept (runes "+-") s in
      let '(pre, digits, have, s2) := scanBasePrefix s1 in
      match scanNumber digits have s2 with
      | inl e => inl e
      | inr (num, s3) =>
          match ParseInt0 (sign ++ pre ++ num) with
          | Some z => inr (z, s3)
          | None => inl ErrParseInt
          end
      end
  end.

(** The whole call.  Both operands start at their zero values; an operand
    is assigned only if its conversion succeeds, and the scan stops at the
    first error.  Input left over after the integer is not an error. *)
Definition Sscanf (line : list N) : list N * Z * option scan_error :=
  match SkipSpace line with
  | inl e => ([], 0, Some e)
  | inr [] => ([], 0, Some ErrEOF)
  | inr s1 =>
      let '(value, s2) := token s1 in
      match SkipSpace s2 with
      | inl e => (value, 0, Some e)
      | inr s3 =>
          match scanInt s3 with
          | inl e => (value, 0, Some e)
          | inr (count, _) => (value, count, None)
          end
      end
  end.

Definition no_space (key : list N) : Prop :=
  Forall (fun r => isSpace r = false) key.

(** A token: what [strings.Fields] and the [%v] of [Sscanf] deliver, a
    non-empty word without white space. *)
Definition is_token (key : list N) : Prop := key <> [] /\ no_space key.

(** The line that [Sprintf_entry] prints, without its newline. *)
Definition entry_line (key : list N) (count : Z) : list N :=
  key ++ runes " " ++ FormatInt count.

(** A line that [bufio.Scanner] hands back unchanged: no newline inside, no
    carriage return at the end. *)
Definition plain_line (l : list N) : Prop :=
  Forall (fun c => c <> 10%N) l /\ last l <> Some 13%N.

(** ** Files *)

Inductive error : Type :=
  | OpenError (name : list N)     (* os.Open failed *)
  | CreateError (name : list N)   (* os.Create failed *)
  | ReadError (name : list N)     (* scanner.Err() after the last line *)
  | Errorf (msg : string).        (* fmt.Errorf(msg) *)

(** A file is its text; [read_fault] tells that reading it ends with an
    error once the text has been delivered. *)
Record file : Type := mkFile {
  content : list N;
  read_fault : bool
}.

(** The directory: the files by name, and the names that cannot be
    created or truncated. *)
Record FS : Type := mkFS {
  files : gmap (list N) file;
  denied : gset (list N)
}.

Definition os_Open (fs : FS) (name : list N) : error + file :=
  match files fs !! name with
  | Some f => inr f
  | None => inl (OpenError name)
  end.

(** [os.Create]: create or truncate. *)
Definition os_Create (fs : FS) (name : list N) : error + FS :=
  if decide (name ∈ denied fs) then inl (CreateError name)
  else inr {| files := <[name := {| content := []; read_fault := false |}]> (files fs);
              denied := denied fs |}.

Definition append_text (text : list N) (f : file) : file :=
  {| content := content f ++ text; read_fault := read_fault f |}.

(** [fmt.Fprintf]/[fmt.Fprintln] on the handle of the file [name]: the text
    goes to the end of the file. *)
Definition Fprint (fs : FS) (name : list N) (text : list N) : FS :=
  {| files := alter (append_text text) name (files fs);
     denied := denied fs |}.

(** [dropCR], on a line held last code point first. *)
Definition dropCR (line : list N) : list N :=
  match line with
  | c :: l => if (c =? 13)%N then l else line
  | [] => line
  end.

(** [bufio.Scanner] with [ScanLines]: the text cut at each newline, one
    trailing carriage return dropped per line; a last line without newline
    is delivered if it is not empty.  [cur] is the line being read, most
    recent code point first. *)
Fixpoint lines_from (cur : list N) (s : list N) : list (list N) :=
  match s with
  | [] => match cur with [] => [] | _ => [rev (dropCR cur)] end
  | r :: s' =>
      if (r =? 10)%N then rev (dropCR cur) :: lines_from [] s'
      else lines_from (r :: cur) s'
  end.

Definition scan_lines (text : list N) : list (list N) := lines_from [] text.

(** The text that the [range] loop over the entries prints. *)
Definition entries_text (entries : list (list N * Z)) : list N :=
  concat (map (fun kc => Sprintf_entry kc.1 kc.2) entries).



Definition no_space_keys (counts : gmap (list N) Z) : Prop :=
  map_Forall (fun key _ => no_space key) counts.


(** ** The map task *)

Record MapReduce : Type := mkMapReduce {
  Files : list (list N);
  NMap : Z;
  NReduce : Z
}.

(** [counts[key]++] *)
Definition count_incr (counts : gmap (list N) Z) (key : list N) : gmap (list N) Z :=
  <[key := wrap64 (default 0 (counts !! key) + 1)]> counts.

(** The scanning loop of [MapTask]: the two tallies after the lines, or
    the panic of the first line [ParseEHR] cannot index. *)
Fixpoint tally (lines : list (list N)) (diagnosisCounts treatmentCounts : gmap (list N) Z)
  : outcome (gmap (list N) Z * gmap (list N) Z) :=
  match lines with
  | [] => Ret (diagnosisCounts, treatmentCounts)
  | line :: rest =>
      let* ehr := ParseEHR line in
      tally rest (count_incr diagnosisCounts (Diagnosis ehr))
                 (count_incr treatmentCounts (Treatment ehr))
  end.

Section Tasks.

(** The order in which [range] visits the entries of a map. *)
Variable range_order : list (list N * Z) -> list (list N * Z).

(** [for key, count := range counts { fmt.Fprintf(f, "%v %v\n", key, count) }] *)
Definition write_counts (fs : FS) (name : list N) (counts : gmap (list N) Z) : FS :=
  foldl (fun fs kc => Fprint fs name (Sprintf_entry kc.1 kc.2)) fs
        (range_order (map_to_list counts)).

(** [MapTask]: the file system it leaves, and what it sends on [results]
    ([None] is [nil]) unless it panics. *)
Definition MapTask (filename : list N) (task : Z) (mr : MapReduce) (fs : FS)
  : FS * outcome (option error) :=
  match os_Open fs filename with
  | inl err => (fs, Ret (Some err))
  | inr f =>
      match tally (scan_lines (content f)) ∅ ∅ with
      | Panic p => (fs, Panic p)
      | Block => (fs, Block)
      | Ret (diagnosisCounts, treatmentCounts) =>
          if read_fault f then (fs, Ret (Some (ReadError filename)))
          else
            match os_Create fs (diagnosis_filename filename task) with
            | inl err => (fs, Ret (Some err))
            | inr fs1 =>
                let fs2 := write_counts fs1 (diagnosis_filename filename task) diagnosisCounts in
                match os_Create fs2 (treatment_filename filename task) with
                | inl err => (fs2, Ret (Some err))
                | inr fs3 =>
                    (write_counts fs3 (treatment_filename filename task) treatmentCounts,
                     Ret None)
                end
            end
      end
  end.

(** ** The reduce task *)

(** [counts[key] += count] *)
Definition count_add (counts : gmap (list N) Z) (key : list N) (count : Z)
  : gmap (list N) Z :=
  <[key := wrap64 (default 0 (counts !! key) + count)]> counts.

(** The scanning loop over one intermediate file; the error of [Sscanf] is
    not looked at. *)
Definition accumulate (lines : list (list N)) (counts : gmap (list N) Z)
  : gmap (list N) Z :=
  foldl (fun counts line => let '(key, count, _) := Sscanf line in
                            count_add counts key count) counts lines.

(** The loop [for i := 0; i < mr.NMap; i++] of [ReduceTask], over the
    indices still to visit. *)
Fixpoint reduce_files (mr : MapReduce) (fs : FS) (todo : list nat)
    (diagnosisCounts treatmentCounts : gmap (list N) Z)
  : outcome (error + gmap (list N) Z * gmap (list N) Z) :=
  match todo with
  | [] => Ret (inr (diagnosisCounts, treatmentCounts))
  | i :: rest =>
      let* filename := index (Files mr) i in
      match os_Open fs (diagnosis_filename filename (Z.of_nat i)) with
      | inl err => Ret (inl err)
      | inr diagnosisFile =>
          let diagnosisCounts := accumulate (scan_lines (content diagnosisFile)) diagnosisCounts in
          if read_fault diagnosisFile
          then Ret (inl (ReadError (diagnosis_filename filename (Z.of_nat i))))
          else
            match os_Open fs (treatment_filename filename (Z.of_nat i)) with
            | inl err => Ret (inl err)
            | inr treatmentFile =>
                let treatmentCounts := accumulate (scan_lines (content treatmentFile)) treatmentCounts in
                if read_fault treatmentFile
                then Ret (inl (ReadError (treatment_filename filename (Z.of_nat i))))
                else reduce_files mr fs rest diagnosisCounts treatmentCounts
            end
      end
  end.

Definition reduce_out : list N := runes "reduce-out.txt".

(** The text of the report, as the four writes at the end of [ReduceTask]
    produce it. *)
Definition write_report (fs : FS) (diagnosisCounts treatmentCounts : gmap (list N) Z) : FS :=
  let fs1 := Fprint fs reduce_out (runes "Diagnosis Counts:" ++ [10%N]) in
  let fs2 := write_counts fs1 reduce_out diagnosisCounts in
  let fs3 := Fprint fs2 reduce_out (runes "Treatment Counts:" ++ [10%N]) in
  write_counts fs3 reduce_out treatmentCounts.

Definition ReduceTask (task : Z) (mr : MapReduce) (fs : FS)
  : FS * outcome (option error) :=
  match reduce_files mr fs (seq 0 (Z.to_nat (NMap mr))) ∅ ∅ with
  | Panic p => (fs, Panic p)
  | Block => (fs, Block)
  | Ret (inl err) => (fs, Ret (Some err))
  | Ret (inr (diagnosisCounts, treatmentCounts)) =>
      match os_Create fs reduce_out with
      | inl err => (fs, Ret (Some err))
      | inr fs1 => (write_report fs1 diagnosisCounts treatmentCounts, Ret None)
      end
  end.

End Tasks.

(** *** Tables of counts, added up *)



(** Some table holds [V]. *)
Definition counted (ds : list (gmap (list N) Z)) (V : list N) : bool :=
  existsb (fun d => bool_decide (is_Some (d !! V))) ds.





(** ** The master and its task channels *)

(** A buffered channel of [int]: its capacity and the values waiting in it,
    oldest first. *)
Record chan : Type := mkChan {
  cap : nat;
  buf : list Z
}.

(** [make(chan int, size)] *)
Definition make_chan (size : Z) : outcome chan :=
  if size <? 0 then Panic MakechanSizeOutOfRange
  else Ret {| cap := Z.to_nat size; buf := [] |}.

(** [c <- v] with nobody receiving: goes through if there is room. *)
Definition send (c : chan) (v : Z) : outcome chan :=
  if (length (buf c) <? cap c)%nat then Ret {| cap := cap c; buf := buf c ++ [v] |}
  else Block.

(** The receive case of a [select] that has a [default]. *)
Definition try_recv (c : chan) : option (Z * chan) :=
  match buf c with
  | v :: rest => Some (v, {| cap := cap c; buf := rest |})
  | [] => None
  end.

Record Master : Type := mkMaster {
  mr : MapReduce;
  mapTasks : chan;
  reduceTasks : chan
}.

(** [for i := 0; i < n; i++ { c <- i }], over the indices still to send. *)
Fixpoint fill (c : chan) (todo : list nat) : outcome chan :=
  match todo with
  | [] => Ret c
  | i :: rest => let* c' := send c (Z.of_nat i) in fill c' rest
  end.

Definition NewMaster (mr : MapReduce) : outcome Master :=
  let* mapTasks := make_chan (NMap mr) in
  let* reduceTasks := make_chan (NReduce mr) in
  let* mapTasks := fill mapTasks (seq 0 (Z.to_nat (NMap mr))) in
  let* reduceTasks := fill reduceTasks (seq 0 (Z.to_nat (NReduce mr))) in
  Ret {| mr := mr; mapTasks := mapTasks; reduceTasks := reduceTasks |}.

(** [AssignMapTask]: the master afterwards, and the error or the reply. *)
Definition AssignMapTask (m : Master) (args : Z) : Master * (error + Z) :=
  match try_recv (mapTasks m) with
  | Some (task, c) =>
      ({| mr := mr m; mapTasks := c; reduceTasks := reduceTasks m |}, inr task)
  | None => (m, inl (Errorf "no more map tasks"))
  end.

Definition AssignReduceTask (m : Master) (args : Z) : Master * (error + Z) :=
  match try_recv (reduceTasks m) with
  | Some (task, c) =>
      ({| mr := mr m; mapTasks := mapTasks m; reduceTasks := c |}, inr task)
  | None => (m, inl (Errorf "no more reduce tasks"))
  end.

(** The lease calls the master serves one after the other (a [select] with
    a [default] is one atomic step on the channel), and their replies in the
    order of the calls. *)
Inductive call : Type := LeaseMap | LeaseReduce.

Definition serve (m : Master) (c : call) : Master * (error + Z) :=
  match c with
  | LeaseMap => AssignMapTask m 0
  | LeaseReduce => AssignReduceTask m 0
  end.

Fixpoint serve_all (m : Master) (calls : list call) : Master * list (error + Z) :=
  match calls with
  | [] => (m, [])
  | c :: rest =>
      let '(m1, r) := serve m c in
      let '(m2, rs) := serve_all m1 rest in (m2, r :: rs)
  end.

Definition is_map (c : call) : bool :=
  match c with LeaseMap => true | LeaseReduce => false end.

(** The replies to the calls on one pool, in the order of the calls. *)
Fixpoint replies_to (on_map : bool) (calls : list call) (replies : list (error + Z))
  : list (error + Z) :=
  match calls, replies with
  | c :: calls', r :: replies' =>
      if Bool.eqb (is_map c) on_map then r :: replies_to on_map calls' replies'
      else replies_to on_map calls' replies'
  | _, _ => []
  end.

(** The task indices handed out, in the order of the calls. *)
Definition leased (replies : list (error + Z)) : list Z :=
  omap (fun r => match r with inr task => Some task | inl _ => None end) replies.

(** How many of the calls are on the given pool. *)
Definition calls_on (on_map : bool) (calls : list call) : nat :=
  length (List.filter (fun c => Bool.eqb (is_map c) on_map) calls).

(** The indices [0 .. n-1] as [NewMaster] sends them. *)
Definition pool (n : Z) : list Z := map Z.of_nat (seq 0 (Z.to_nat n)).

Definition no_tasks (on_map : bool) : error :=
  if on_map then Errorf "no more map tasks" else Errorf "no more reduce tasks".

Definition tasks_of (on_map : bool) (m : Master) : chan :=
  if on_map then mapTasks m else reduceTasks m.

Definition sample_mr : MapReduce :=
  {| Files := [runes "a.txt"; runes "b.txt"]; NMap := 2; NReduce := 1 |}.

Definition sample_master : Master :=
  {| mr := sample_mr;
     mapTasks := {| cap := 2; buf := [0; 1] |};
     reduceTasks := {| cap := 1; buf := [0] |} |}.

(** ** The completion gate: [Done] and [Wait] on the unbuffered [done] channel

    [done] is made by [make(chan bool)], without buffer: a send completes
    only together with a receive.  The goroutines that touch the channel are
    the handlers of the [Master.Done] calls, the callers of [Master.Wait],
    and [main], which first waits for the reply of its [Done] call and then
    calls [Wait] itself. *)

Inductive thread : Type :=
  | DoneSend                      (* in Done, at [m.done <- true] *)
  | DoneReturned (reply : string) (* Done has set its reply and returned nil *)
  | WaitRecv                      (* in Wait, at [<-m.done] *)
  | WaitReturned                  (* Wait has returned *)
  | CallDone (handler : nat).     (* at client.Call("Master.Done", ...), served by [handler] *)

Definition done_reply : string := "All tasks are done".

Inductive step : list thread -> list thread -> Prop :=
  | step_rendezvous (cfg : list thread) (i j : nat) :
      cfg !! i = Some DoneSend ->
      cfg !! j = Some WaitRecv ->
      step cfg (<[i := DoneReturned done_reply]> (<[j := WaitReturned]> cfg))
  | step_reply (cfg : list thread) (k h : nat) (reply : string) :
      cfg !! k = Some (CallDone h) ->
      cfg !! h = Some (DoneReturned reply) ->
      step cfg (<[k := WaitRecv]> cfg).

Inductive steps : list thread -> list thread -> Prop :=
  | steps_refl (cfg : list thread) : steps cfg cfg
  | steps_step (cfg cfg1 cfg2 : list thread) :
      steps cfg cfg1 -> step cfg1 cfg2 -> steps cfg cfg2.

Definition is_DoneSend (t : thread) : bool :=
  match t with DoneSend => true | _ => false end.
Definition is_DoneReturned (t : thread) : bool :=
  match t with DoneReturned _ => true | _ => false end.
Definition is_WaitRecv (t : thread) : bool :=
  match t with WaitRecv => true | _ => false end.
Definition is_WaitReturned (t : thread) : bool :=
  match t with WaitReturned => true | _ => false end.
Definition is_CallDone (t : thread) : bool :=
  match t with CallDone _ => true | _ => false end.

Definition count (p : thread -> bool) (cfg : list thread) : nat :=
  length (filter (fun t => p t = true) cfg).

(** Whether some step is possible: a sender and a receiver are both
    there, or a caller whose handler has returned. *)
Definition can_step (cfg : list thread) : bool :=
  existsb is_DoneSend cfg && existsb is_WaitRecv cfg
  || existsb (fun t => match t with
                       | CallDone h =>
                           match cfg !! h with
                           | Some (DoneReturned _) => true
                           | _ => false
                           end
                       | _ => false
                       end) cfg.

(** [n] calls of [Done] and [w] calls of [Wait], none of them started. *)
Definition gate_calls (n w : nat) : list thread :=
  replicate n DoneSend ++ replicate w WaitRecv.

(** The end of [main]: its own call of [Done], then its [Wait]. *)
Definition main_tail : list thread := [CallDone 1; DoneSend].

(** ** The phase runner *)

Fixpoint has_prefix (p s : list N) : bool :=
  match p, s with
  | [], _ => true
  | _ :: _, [] => false
  | x :: p', y :: s' => (x =? y)%N && has_prefix p' s'
  end.

(** [strings.HasSuffix] *)
Definition HasSuffix (s suffix : list N) : bool := has_prefix (rev suffix) (rev s).

Fixpoint lex_leb (a b : list N) : bool :=
  match a, b with
  | [], _ => true
  | _ :: _, [] => false
  | x :: a', y :: b' =>
      if (x <? y)%N then true else if (x =? y)%N then lex_leb a' b' else false
  end.

(** [ioutil.ReadDir(".")]: the names in the directory, sorted. *)
Definition ReadDir (fs : FS) : list (list N) :=
  merge_sort (fun a b => Is_true (lex_leb a b)) (map fst (map_to_list (files fs))).

Inductive event : Type :=
  | RanMap (task : nat)
  | RanReduce (task : nat).

Inductive exit : Type :=
  | ExitPanic (p : panic)                 (* a goroutine panicked: the process dies *)
  | ExitBlock                             (* a goroutine never comes back *)
  | ExitFatal (msg : string) (err : error) (* log.Fatal *)
  | GoesToDone.                           (* both barriers passed: main dials and calls Done *)

(** The goroutines of one phase, run one after the other in the order
    given, up to the barrier [wg.Wait()]: the file system they leave, the
    tasks that ran, and the errors sent on the result channel.  A panic in
    one goroutine ends the process on the spot. *)
Fixpoint run_tasks (tasks : list (event * (FS -> FS * outcome (option error))))
    (fs : FS) (trace : list event) (results : list (option error))
  : FS * list event * outcome (list (option error)) :=
  match tasks with
  | [] => (fs, trace, Ret results)
  | (ev, task) :: rest =>
      let '(fs', r) := task fs in
      match r with
      | Ret res => run_tasks rest fs' (trace ++ [ev]) (results ++ [res])
      | Panic p => (fs', trace ++ [ev], Panic p)
      | Block => (fs', trace ++ [ev], Block)
      end
  end.

(** [for err := range results { if err != nil { log.Fatal(...) } }] *)
Fixpoint first_error (results : list (option error)) : option error :=
  match results with
  | [] => None
  | Some err :: _ => Some err
  | None :: rest => first_error rest
  end.


Section Runner.

Variable range_order : list (list N * Z) -> list (list N * Z).

(** The order in which the map goroutines get to run. *)
Variable schedule : list (nat * list N) -> list (nat * list N).

(** The names [main] keeps from the directory listing. *)
Definition txt_files (fs : FS) : list (list N) :=
  filter (fun name => Is_true (HasSuffix name (runes ".txt"))) (ReadDir fs).

Definition run_config (fs : FS) : MapReduce :=
  {| Files := txt_files fs; NMap := Z.of_nat (length (txt_files fs)); NReduce := 1 |}.

(** [go MapTask(filename, i, mr, &wg, mapResults)] *)
Definition map_task_of (mr : MapReduce) (it : nat * list N)
  : event * (FS -> FS * outcome (option error)) :=
  (RanMap it.1, MapTask range_order it.2 (Z.of_nat it.1) mr).

(** [for i, filename := range filenames { go MapTask(filename, i, ...) }]
    up to [wg.Wait()]. *)
Definition map_phase (fs : FS) : FS * list event * outcome (list (option error)) :=
  run_tasks (map (map_task_of (run_config fs)) (schedule (imap pair (txt_files fs))))
            fs [] [].

(** [main], from the directory listing to the second barrier.
    [listen_err] is what [net.Listen] returned. *)
Definition main (listen_err : option error) (fs : FS) : FS * list event * exit :=
  let mr := run_config fs in
  match NewMaster mr with
  | Panic p => (fs, [], ExitPanic p)
  | Block => (fs, [], ExitBlock)
  | Ret master =>
      match listen_err with
      | Some err => (fs, [], ExitFatal "Listener error:" err)
      | None =>
          let '(fs1, trace1, r1) := map_phase fs in
          match r1 with
          | Panic p => (fs1, trace1, ExitPanic p)
          | Block => (fs1, trace1, ExitBlock)
          | Ret mapResults =>
              match first_error mapResults with
              | Some err => (fs1, trace1, ExitFatal "Map task error:" err)
              | None =>
                  let '(fs2, trace2, r2) :=
                    run_tasks (map (fun i => (RanReduce i, ReduceTask range_order (Z.of_nat i) mr))
                                   (seq 0 (Z.to_nat (NReduce mr)))) fs1 trace1 [] in
                  match r2 with
                  | Panic p => (fs2, trace2, ExitPanic p)
                  | Block => (fs2, trace2, ExitBlock)
                  | Ret reduceResults =>
                      match first_error reduceResults with
                      | Some err => (fs2, trace2, ExitFatal "Reduce task error:" err)
                      | None => (fs2, trace2, GoesToDone)
                      end
                  end
              end
          end
      end
  end.

(** A phase has failed: a goroutine panicked or hangs, or some task sent
    an error. *)
Definition failed (r : outcome (list (option error))) : Prop :=
  match r with
  | Ret results => exists err, Some err ∈ results
  | _ => True
  end.



End Runner.

(** *** The scenarios of the specification, run *)

Definition text_file (lines : list string) : file :=
  {| content := concat (map (fun l => runes l ++ [10%N]) lines); read_fault := false |}.

Definition two_partitions : FS :=
  {| files := {[ runes "a.txt" := text_file ["1 Ann Lee 30 flu rest"%string; "2 Bob Ray 41 flu pills"%string;
                                             "3 Cy Dee 52 cold rest"%string];
                 runes "b.txt" := text_file ["4 Di Eck 23 flu rest"%string; "5 Ed Fay 34 cold tea"%string;
                                             "6 Flo Gil 45 cold tea"%string] ]};
     denied := ∅ |}.

(** One partition with a line of four tokens. *)
Definition short_line_partition : FS :=
  {| files := {[ runes "a.txt" := text_file ["1 Ann Lee 30 flu rest"%string;
                                             "2 Bob Ray 41"%string] ]};
     denied := ∅ |}.

Definition is_RanReduce (ev : event) : bool :=
  match ev with RanReduce _ => true | RanMap _ => false end.

Definition report_of (fs : FS) : option (list (list N)) :=
  (fun f => scan_lines (content f)) <$> files fs !! reduce_out.

(** The intermediate files of the two partitions, as the two map tasks
    leave them. *)
Definition two_partitions_mapped : FS :=
  (MapTask (fun l => l) (runes "b.txt") 1 sample_mr
     (MapTask (fun l => l) (runes "a.txt") 0 sample_mr two_partitions).1).1.

(** One partition whose diagnosis file holds, after a good line, a line
    of one token, a line whose second token is no number, and an empty
    line. *)
Definition one_mr : MapReduce :=
  {| Files := [runes "a.txt"]; NMap := 1; NReduce := 1 |}.

Definition damaged_intermediate : FS :=
  {| files := {[ runes "map-diagnosis-a.txt-0.txt" :=
                   text_file ["flu 2"%string; "cold"%string; "ache x7"%string; ""%string];
                 runes "map-treatment-a.txt-0.txt" := text_file ["rest 2"%string] ]};
     denied := ∅ |}.

(** The file [name] can be opened and read to its end. *)
Definition readable (fs : FS) (name : list N) : Prop :=
  exists f, files fs !! name = Some f /\ read_fault f = false.




(** How many of the lines are records whose [field] is [V]. *)
Fixpoint occurrences (field : EHR -> list N) (V : list N) (lines : list (list N)) : Z :=
  match lines with
  | [] => 0
  | line :: rest =>
      match ParseEHR line with
      | Ret ehr => if decide (field ehr = V) then 1 else 0
      | _ => 0
      end + occurrences field V rest
  end.


(** The two partitions in a directory where the report may not be
    created. *)
Definition report_denied : FS :=
  {| files := files two_partitions; denied := {[ reduce_out ]} |}.


(** A directory with one empty partition, and a directory with no file. *)
Definition empty_partition : FS :=
  {| files := {[ runes "a.txt" := text_file [] ]}; denied := ∅ |}.

Definition empty_directory : FS := {| files := ∅; denied := ∅ |}.


(** * Properties *)

(** ** The model at work *)

Example ParseEHR_sample :
  ParseEHR (runes "17 Ada Lovelace 36 flu rest") =
  Ret {| PatientID := runes "17"; Name := runes "Ada Lovelace";
         Age := runes "36"; Diagnosis := runes "flu";
         Treatment := runes "rest" |}.
Proof. reflexivity. Qed.

Example ParseEHR_four_tokens :
  ParseEHR (runes "17 Ada Lovelace 36") = Panic (IndexOutOfRange 4 4).
Proof. reflexivity. Qed.

Example FormatInt_samples :
  FormatInt 0 = runes "0" /\ FormatInt 1203 = runes "1203" /\
  FormatInt (-45) = runes "-45" /\
  FormatInt (- 2 ^ 63) = runes "-9223372036854775808".
Proof. vm_compute. auto. Qed.

Example diagnosis_filename_sample :
  diagnosis_filename (runes "a.txt") 0 = runes "map-diagnosis-a.txt-0.txt".
Proof. reflexivity. Qed.

Example Sscanf_samples :
  Sscanf (runes "flu 3") = (runes "flu", 3, None) /\
  Sscanf (runes "  flu   -12 rest") = (runes "flu", -12, None) /\
  Sscanf (runes "flu 0x1F") = (runes "flu", 31, None) /\
  Sscanf (runes "flu 010") = (runes "flu", 8, None) /\
  Sscanf (runes "flu 1_000") = (runes "flu", 1000, None) /\
  Sscanf (runes "flu 9223372036854775808") = (runes "flu", 0, Some ErrParseInt) /\
  Sscanf (runes "flu") = (runes "flu", 0, Some ErrEOF) /\
  Sscanf (runes "flu three") = (runes "flu", 0, Some ErrExpectedInteger) /\
  Sscanf (runes "") = ([], 0, Some ErrEOF).
Proof. vm_compute. repeat split. Qed.

Example scan_lines_sample :
  scan_lines (runes "a b" ++ [13; 10] ++ [10] ++ runes "c")%N =
  [runes "a b"; []; runes "c"].
Proof. reflexivity. Qed.

Example NewMaster_sample :
  NewMaster {| Files := [runes "a.txt"; runes "b.txt"]; NMap := 2; NReduce := 1 |} =
  Ret {| mr := {| Files := [runes "a.txt"; runes "b.txt"]; NMap := 2; NReduce := 1 |};
         mapTasks := {| cap := 2; buf := [0; 1] |};
         reduceTasks := {| cap := 1; buf := [0] |} |}.
Proof. reflexivity. Qed.

Example main_two_partitions :
  let r := main (fun l => l) (fun l => l) None two_partitions in
  r.1.2 = [RanMap 0; RanMap 1; RanReduce 0]%nat /\ r.2 = GoesToDone /\
  report_of r.1.1 =
    Some [runes "Diagnosis Counts:"; runes "flu 3"; runes "cold 3";
          runes "Treatment Counts:"; runes "rest 3"; runes "pills 1"; runes "tea 2"].
Proof. vm_compute. auto. Qed.

Example Fields_sample :
  Fields (runes "  17 Ada" ++ [9%N] ++ runes "Lovelace   36 ")
  = [runes "17"; runes "Ada"; runes "Lovelace"; runes "36"].
Proof. reflexivity. Qed.

Example main_short_line :
  let r := main (fun l => l) (fun l => l) None short_line_partition in
  r.1.2 = [RanMap 0%nat] /\ r.2 = ExitPanic (IndexOutOfRange 4 4) /\
  report_of r.1.1 = None.
Proof. vm_compute. auto. Qed.

Example reduce_missing_intermediate :
  (ReduceTask (fun l => l) 0 sample_mr two_partitions).2
  = Ret (Some (OpenError (runes "map-diagnosis-a.txt-0.txt"))).
Proof. vm_compute. reflexivity. Qed.

(** ** The record parser *)

Lemma index_lookup {A} (s : list A) (i : nat) (x : A) :
  s !! i = Some x -> index s i = Ret x.
Proof. intros H. unfold index. now rewrite H. Qed.

Lemma index_out_of_range {A} (s : list A) (i : nat) :
  (length s <= i)%nat -> index s i = Panic (IndexOutOfRange i (length s)).
Proof. intros H. unfold index. now rewrite (lookup_ge_None_2 s i H). Qed.

(** C1. A line that splits into fewer than six tokens makes [ParseEHR]
    panic with an index out of range, at the index that equals the number
    of tokens: the length is not checked before the fields are taken, and
    no error value is returned. *)
Theorem ParseEHR_short_line_panics (line : list N) :
  (length (Fields line) < 6)%nat ->
  ParseEHR line =
  Panic (IndexOutOfRange (length (Fields line)) (length (Fields line))).
Proof.
  intros Hlen. unfold ParseEHR.
  destruct (Fields line) as [|f0 [|f1 [|f2 [|f3 [|f4 [|f5 rest]]]]]];
    simpl in *; try reflexivity.
  lia.
Qed.

Lemma ParseEHR_short_line_panics_witness :
  (length (Fields (runes "17 Ada Lovelace 36")) < 6)%nat /\
  ParseEHR (runes "17 Ada Lovelace 36") = Panic (IndexOutOfRange 4 4).
Proof.
  split.
  - vm_compute. lia.
  - apply (ParseEHR_short_line_panics (runes "17 Ada Lovelace 36")).
    vm_compute. lia.
Defined.

(** C8. A line with at least six tokens is parsed, always to the same
    record: token 0 is the patient id, tokens 1 and 2 joined by one space
    are the name, token 3 the age, token 4 the diagnosis, token 5 the
    treatment. *)
Theorem ParseEHR_six_tokens (line : list N) :
  (6 <= length (Fields line))%nat ->
  ParseEHR line =
  Ret {| PatientID := nth 0 (Fields line) [];
         Name := nth 1 (Fields line) [] ++ [32%N] ++ nth 2 (Fields line) [];
         Age := nth 3 (Fields line) [];
         Diagnosis := nth 4 (Fields line) [];
         Treatment := nth 5 (Fields line) [] |}.
Proof.
  intros Hlen. unfold ParseEHR.
  destruct (Fields line) as [|f0 [|f1 [|f2 [|f3 [|f4 [|f5 rest]]]]]];
    simpl in Hlen; try lia.
  reflexivity.
Qed.

Lemma ParseEHR_six_tokens_witness :
  ParseEHR (runes "17 Ada Lovelace 36 flu rest now") =
  Ret {| PatientID := runes "17"; Name := runes "Ada Lovelace";
         Age := runes "36"; Diagnosis := runes "flu";
         Treatment := runes "rest" |}.
Proof.
  rewrite (ParseEHR_six_tokens (runes "17 Ada Lovelace 36 flu rest now")).
  - reflexivity.
  - vm_compute. lia.
Defined.

(** ** The master *)

Lemma fill_room (todo : list nat) (c : chan) :
  (length (buf c) + length todo <= cap c)%nat ->
  fill c todo = Ret {| cap := cap c; buf := buf c ++ map Z.of_nat todo |}.
Proof.
  revert c. induction todo as [|i todo IH]; intros c Hroom.
  - simpl. rewrite app_nil_r. now destruct c.
  - simpl in *. unfold send.
    destruct (Nat.ltb_spec (length (buf c)) (cap c)) as [_|Hfull]; [|lia].
    simpl. rewrite IH.
    + simpl. now rewrite <- app_assoc.
    + simpl. rewrite length_app. simpl. lia.
Qed.

(** [NewMaster] neither panics nor blocks when the two counts are not
    negative, and leaves the indices in the channels in ascending order. *)
Lemma NewMaster_returns (mr0 : MapReduce) :
  0 <= NMap mr0 -> 0 <= NReduce mr0 ->
  NewMaster mr0 =
  Ret {| mr := mr0;
         mapTasks := {| cap := Z.to_nat (NMap mr0); buf := pool (NMap mr0) |};
         reduceTasks := {| cap := Z.to_nat (NReduce mr0); buf := pool (NReduce mr0) |} |}.
Proof.
  intros Hm Hr. unfold NewMaster, make_chan.
  destruct (Z.ltb_spec (NMap mr0) 0) as [|_]; [lia|].
  destruct (Z.ltb_spec (NReduce mr0) 0) as [|_]; [lia|].
  simpl. rewrite fill_room; [simpl | simpl; rewrite length_seq; lia].
  rewrite fill_room; [reflexivity | simpl; rewrite length_seq; lia].
Qed.

Lemma NewMaster_inv (mr0 : MapReduce) (m : Master) :
  NewMaster mr0 = Ret m ->
  buf (mapTasks m) = pool (NMap mr0) /\ buf (reduceTasks m) = pool (NReduce mr0).
Proof.
  intros H.
  destruct (Z.ltb_spec (NMap mr0) 0) as [Hm|Hm].
  { unfold NewMaster, make_chan in H.
    destruct (Z.ltb_spec (NMap mr0) 0); [discriminate | lia]. }
  destruct (Z.ltb_spec (NReduce mr0) 0) as [Hr|Hr].
  { unfold NewMaster, make_chan in H.
    destruct (Z.ltb_spec (NMap mr0) 0); [lia|].
    destruct (Z.ltb_spec (NReduce mr0) 0); [discriminate | lia]. }
  rewrite NewMaster_returns in H by lia.
  injection H as <-. auto.
Qed.

Lemma serve_all_replies (on_map : bool) (calls : list call) (m : Master) :
  replies_to on_map calls (serve_all m calls).2 =
  map inr (take (calls_on on_map calls) (buf (tasks_of on_map m)))
  ++ replicate (calls_on on_map calls - length (buf (tasks_of on_map m)))
               (inl (no_tasks on_map)).
Proof.
  revert m. induction calls as [|c calls IH]; intros m.
  - reflexivity.
  - simpl. destruct (serve m c) as [m1 r] eqn:Hs.
    specialize (IH m1). destruct (serve_all m1 calls) as [m2 rs]. simpl in *.
    unfold calls_on in *. simpl.
    destruct c, on_map; simpl in *;
      unfold AssignMapTask, AssignReduceTask, try_recv in Hs.
    + destruct (buf (mapTasks m)) as [|v rest] eqn:Hb;
        injection Hs as <- <-; simpl in *; rewrite IH.
      * rewrite Hb. simpl. now rewrite take_nil, Nat.sub_0_r.
      * reflexivity.
    + destruct (buf (mapTasks m)) as [|v rest] eqn:Hb;
        injection Hs as <- <-; simpl in *; now rewrite IH.
    + destruct (buf (reduceTasks m)) as [|v rest] eqn:Hb;
        injection Hs as <- <-; simpl in *; now rewrite IH.
    + destruct (buf (reduceTasks m)) as [|v rest] eqn:Hb;
        injection Hs as <- <-; simpl in *; rewrite IH.
      * rewrite Hb. simpl. now rewrite take_nil, Nat.sub_0_r.
      * reflexivity.
Qed.

Lemma map_fmap {A B} (f : A -> B) (l : list A) : map f l = f <$> l.
Proof. induction l; simpl; [reflexivity | now f_equal]. Qed.

(** On a fresh master the replies to the calls on one pool are the indices
    from 0 upwards, as long as there are any, and the error afterwards. *)
Lemma fresh_master_replies (on_map : bool) (mr0 : MapReduce) (m : Master)
    (calls : list call) :
  NewMaster mr0 = Ret m ->
  replies_to on_map calls (serve_all m calls).2 =
  map (fun i => inr (Z.of_nat i))
      (seq 0 (Nat.min (calls_on on_map calls)
                      (Z.to_nat (if on_map then NMap mr0 else NReduce mr0))))
  ++ replicate (calls_on on_map calls
                - Z.to_nat (if on_map then NMap mr0 else NReduce mr0))
               (inl (no_tasks on_map)).
Proof.
  intros Hnew. destruct (NewMaster_inv _ _ Hnew) as [Hmap Hred].
  rewrite serve_all_replies.
  assert (Hbuf : buf (tasks_of on_map m)
                 = pool (if on_map then NMap mr0 else NReduce mr0))
    by (destruct on_map; assumption).
  rewrite Hbuf. unfold pool.
  rewrite length_map, length_seq, firstn_map, take_seq, List.map_map.
  reflexivity.
Qed.

Lemma leased_successes (l : list nat) (k : nat) (e : error) :
  leased (map (fun i => inr (Z.of_nat i)) l ++ replicate k (inl e))
  = map Z.of_nat l.
Proof.
  unfold leased. rewrite omap_app.
  replace (omap _ (replicate k (inl e))) with (@nil Z)
    by (induction k; simpl; auto).
  rewrite app_nil_r. induction l; simpl; [reflexivity | now f_equal].
Qed.

(** C3. On a fresh master with a map pool of size N, whatever calls are
    served: every call on the map pool is answered (none blocks); the
    first N of them succeed; each later one fails with the error
    "no more map tasks"; and no task index is handed out twice. *)
Theorem lease_exhausts_map_pool (mr0 : MapReduce) (m : Master) (calls : list call) :
  NewMaster mr0 = Ret m ->
  let n := Z.to_nat (NMap mr0) in
  let replies := replies_to true calls (serve_all m calls).2 in
  length replies = calls_on true calls
  /\ (forall k, (k < n)%nat -> (k < calls_on true calls)%nat ->
        exists task, replies !! k = Some (inr task))
  /\ (forall k, (n <= k)%nat -> (k < calls_on true calls)%nat ->
        replies !! k = Some (inl (Errorf "no more map tasks")))
  /\ NoDup (leased replies).
Proof.
  intros Hnew n replies. subst replies.
  rewrite (fresh_master_replies true _ _ _ Hnew). fold n.
  set (cnt := calls_on true calls).
  split; [|split; [|split]].
  - rewrite length_app, length_map, length_seq, length_replicate. lia.
  - intros k Hk Hc. exists (Z.of_nat k).
    rewrite lookup_app_l by (rewrite length_map, length_seq; lia).
    rewrite map_fmap, list_lookup_fmap, lookup_seq_lt by lia.
    reflexivity.
  - intros k Hk Hc.
    rewrite lookup_app_r by (rewrite length_map, length_seq; lia).
    rewrite length_map, length_seq.
    apply lookup_replicate. split; [reflexivity | lia].
  - rewrite leased_successes, map_fmap.
    apply NoDup_fmap_2; [intros x y; lia | apply NoDup_seq].
Qed.

Lemma lease_exhausts_map_pool_witness :
  NewMaster sample_mr = Ret sample_master /\
  let calls := [LeaseMap; LeaseReduce; LeaseMap; LeaseMap; LeaseReduce] in
  let replies := replies_to true calls (serve_all sample_master calls).2 in
  length replies = 3%nat
  /\ (forall k, (k < 2)%nat -> (k < 3)%nat -> exists task, replies !! k = Some (inr task))
  /\ (forall k, (2 <= k)%nat -> (k < 3)%nat ->
        replies !! k = Some (inl (Errorf "no more map tasks")))
  /\ NoDup (leased replies).
Proof.
  split; [reflexivity|].
  apply (lease_exhausts_map_pool sample_mr sample_master
           [LeaseMap; LeaseReduce; LeaseMap; LeaseMap; LeaseReduce]).
  reflexivity.
Defined.

(** C10. On a fresh master the successful leases on the map pool return
    the indices in ascending order from 0: the k-th of them, counted from
    1, returns k-1; and so do the successful leases on the reduce pool. *)
Theorem leases_in_ascending_order (on_map : bool) (mr0 : MapReduce) (m : Master)
    (calls : list call) :
  NewMaster mr0 = Ret m ->
  let n := Z.to_nat (if on_map then NMap mr0 else NReduce mr0) in
  let tasks := leased (replies_to on_map calls (serve_all m calls).2) in
  tasks = map Z.of_nat (seq 0 (Nat.min (calls_on on_map calls) n))
  /\ forall k task, tasks !! k = Some task -> task = Z.of_nat k.
Proof.
  intros Hnew n tasks. subst tasks.
  rewrite (fresh_master_replies on_map _ _ _ Hnew). fold n.
  rewrite leased_successes. split; [reflexivity|].
  intros k task. rewrite map_fmap, list_lookup_fmap.
  destruct (seq 0 _ !! k) as [i|] eqn:Hk; [|discriminate].
  apply lookup_seq in Hk as [-> _]. simpl. congruence.
Qed.

Lemma leases_in_ascending_order_witness :
  NewMaster sample_mr = Ret sample_master /\
  let calls := [LeaseMap; LeaseReduce; LeaseMap; LeaseMap; LeaseReduce] in
  (leased (replies_to true calls (serve_all sample_master calls).2) = [0; 1]
   /\ forall k task,
        leased (replies_to true calls (serve_all sample_master calls).2) !! k = Some task ->
        task = Z.of_nat k)
  /\ (leased (replies_to false calls (serve_all sample_master calls).2) = [0]
      /\ forall k task,
        leased (replies_to false calls (serve_all sample_master calls).2) !! k = Some task ->
        task = Z.of_nat k).
Proof.
  split; [reflexivity|]. split.
  - apply (leases_in_ascending_order true sample_mr sample_master
             [LeaseMap; LeaseReduce; LeaseMap; LeaseMap; LeaseReduce]).
    reflexivity.
  - apply (leases_in_ascending_order false sample_mr sample_master
             [LeaseMap; LeaseReduce; LeaseMap; LeaseMap; LeaseReduce]).
    reflexivity.
Defined.

(** ** The completion gate *)

Lemma count_cons (p : thread -> bool) (t : thread) (cfg : list thread) :
  count p (t :: cfg) = ((if p t then 1 else 0) + count p cfg)%nat.
Proof.
  unfold count. rewrite filter_cons.
  destruct (p t); case_decide; simpl; congruence.
Qed.

Lemma count_insert (p : thread -> bool) (cfg : list thread) (i : nat) (old new : thread) :
  cfg !! i = Some old ->
  (count p (<[i := new]> cfg) + (if p old then 1 else 0)
   = count p cfg + (if p new then 1 else 0))%nat.
Proof.
  revert i. induction cfg as [|t cfg IH]; intros [|i] H; simpl in *;
    try discriminate.
  - injection H as ->. rewrite !count_cons. lia.
  - rewrite !count_cons. specialize (IH i H). lia.
Qed.

Lemma count_app (p : thread -> bool) (a b : list thread) :
  count p (a ++ b) = (count p a + count p b)%nat.
Proof. unfold count. now rewrite filter_app, length_app. Qed.

Lemma count_replicate (p : thread -> bool) (n : nat) (t : thread) :
  count p (replicate n t) = if p t then n else 0%nat.
Proof.
  induction n as [|n IH]; simpl.
  - now destruct (p t).
  - rewrite count_cons, IH. destruct (p t); lia.
Qed.

(** What one step does to the numbers of threads at each point. *)
Lemma step_counts (cfg cfg' : list thread) :
  step cfg cfg' ->
  (count is_DoneSend cfg' + count is_DoneReturned cfg'
   = count is_DoneSend cfg + count is_DoneReturned cfg
   /\ count is_WaitRecv cfg' + count is_WaitReturned cfg' + count is_CallDone cfg'
      = count is_WaitRecv cfg + count is_WaitReturned cfg + count is_CallDone cfg
   /\ count is_DoneReturned cfg' - count is_WaitReturned cfg'
      = count is_DoneReturned cfg - count is_WaitReturned cfg
   /\ count is_WaitReturned cfg' - count is_DoneReturned cfg'
      = count is_WaitReturned cfg - count is_DoneReturned cfg
   /\ count is_CallDone cfg' <= count is_CallDone cfg)%nat.
Proof.
  intros [cfg0 i j Hi Hj | cfg0 k h reply Hk Hh].
  - assert (Hne : i <> j) by congruence.
    assert (Hi' : <[j := WaitReturned]> cfg0 !! i = Some DoneSend)
      by (rewrite list_lookup_insert_ne; auto).
    pose proof (fun p => count_insert p _ i _ (DoneReturned done_reply) Hi') as K1.
    pose proof (fun p => count_insert p _ j _ WaitReturned Hj) as K2.
    pose proof (K1 is_DoneSend); pose proof (K1 is_DoneReturned);
      pose proof (K1 is_WaitRecv); pose proof (K1 is_WaitReturned);
      pose proof (K1 is_CallDone).
    pose proof (K2 is_DoneSend); pose proof (K2 is_DoneReturned);
      pose proof (K2 is_WaitRecv); pose proof (K2 is_WaitReturned);
      pose proof (K2 is_CallDone).
    simpl in *. lia.
  - pose proof (fun p => count_insert p _ k _ WaitRecv Hk) as K1.
    pose proof (K1 is_DoneSend); pose proof (K1 is_DoneReturned);
      pose proof (K1 is_WaitRecv); pose proof (K1 is_WaitReturned);
      pose proof (K1 is_CallDone).
    simpl in *. lia.
Qed.

(** The numbers of threads at each point, after any run of [n] calls of
    [Done] and [w] calls of [Wait]. *)
Lemma gate_counts (n w : nat) (cfg : list thread) :
  steps (gate_calls n w) cfg ->
  (count is_DoneSend cfg + count is_DoneReturned cfg = n
   /\ count is_WaitRecv cfg + count is_WaitReturned cfg + count is_CallDone cfg = w
   /\ count is_DoneReturned cfg = count is_WaitReturned cfg)%nat.
Proof.
  intros Hsteps. remember (gate_calls n w) as cfg0 eqn:E.
  induction Hsteps as [cfg | cfg cfg1 cfg2 _ IH Hstep]; subst.
  - unfold gate_calls. rewrite !count_app, !count_replicate. simpl. lia.
  - specialize (IH eq_refl). apply step_counts in Hstep. lia.
Qed.

(** C2. With [n] calls of [Done] and [w] calls of [Wait] under way, at any
    moment exactly as many [Done] calls have returned as [Wait] calls have:
    a [Done] returns only by handing its value to a [Wait].  At most [w]
    of the [Done] calls ever return, the others stay at their send. *)
Theorem Done_returns_only_with_Wait (n w : nat) (cfg : list thread) :
  steps (gate_calls n w) cfg ->
  (count is_DoneReturned cfg = count is_WaitReturned cfg
   /\ count is_DoneReturned cfg <= w
   /\ count is_DoneSend cfg = n - count is_DoneReturned cfg)%nat.
Proof. intros Hsteps. apply gate_counts in Hsteps. lia. Qed.

Lemma Done_returns_only_with_Wait_witness :
  steps (gate_calls 2 1) [DoneReturned done_reply; DoneSend; WaitReturned] /\
  (count is_DoneReturned [DoneReturned done_reply; DoneSend; WaitReturned]
   = count is_WaitReturned [DoneReturned done_reply; DoneSend; WaitReturned]
   /\ count is_DoneReturned [DoneReturned done_reply; DoneSend; WaitReturned] <= 1
   /\ count is_DoneSend [DoneReturned done_reply; DoneSend; WaitReturned]
      = 2 - count is_DoneReturned [DoneReturned done_reply; DoneSend; WaitReturned])%nat.
Proof.
  assert (H : steps (gate_calls 2 1) [DoneReturned done_reply; DoneSend; WaitReturned]).
  { eapply steps_step; [apply steps_refl|].
    apply (step_rendezvous (gate_calls 2 1) 0 2); reflexivity. }
  split; [exact H|].
  apply (Done_returns_only_with_Wait 2 1 _ H).
Defined.

Lemma existsb_lookup {A} (p : A -> bool) (l : list A) (i : nat) (x : A) :
  l !! i = Some x -> p x = true -> existsb p l = true.
Proof.
  intros Hl Hp. apply existsb_exists. exists x. split; [|exact Hp].
  apply list_elem_of_In. eapply list_elem_of_lookup_2. exact Hl.
Qed.

(** [can_step] sees every step. *)
Lemma step_can_step (cfg cfg' : list thread) : step cfg cfg' -> can_step cfg = true.
Proof.
  intros [cfg0 i j Hi Hj | cfg0 k h reply Hk Hh]; unfold can_step.
  - rewrite (existsb_lookup is_DoneSend _ _ _ Hi eq_refl).
    rewrite (existsb_lookup is_WaitRecv _ _ _ Hj eq_refl). reflexivity.
  - apply orb_true_iff. right.
    eapply existsb_lookup; [exact Hk|]. simpl. now rewrite Hh.
Qed.

Lemma stuck_steps (cfg cfg' : list thread) :
  can_step cfg = false -> steps cfg cfg' -> cfg' = cfg.
Proof.
  intros Hstuck Hsteps. induction Hsteps as [|cfg cfg1 cfg2 _ IH Hstep].
  - reflexivity.
  - specialize (IH Hstuck). subst cfg1.
    apply step_can_step in Hstep. congruence.
Qed.

(** Two calls of [Done] against the one [Wait] that [main] makes: at every
    moment one of the two is still at its send. *)
Lemma second_Done_never_returns (cfg : list thread) :
  steps (gate_calls 2 1) cfg -> (1 <= count is_DoneSend cfg)%nat.
Proof. intros H. apply gate_counts in H. lia. Qed.

(** A call of [Done] with no [Wait] under way does not return. *)
Lemma Done_without_Wait_blocks (n : nat) (cfg : list thread) :
  steps (gate_calls n 0) cfg -> cfg = gate_calls n 0.
Proof.
  apply stuck_steps. unfold can_step, gate_calls. rewrite app_nil_r.
  assert (H1 : existsb is_WaitRecv (replicate n DoneSend) = false)
    by (induction n; simpl; auto).
  assert (H2 : forall cfg : list thread, existsb (fun t => match t with
                             | CallDone h => match cfg !! h with
                                             | Some (DoneReturned _) => true
                                             | _ => false end
                             | _ => false end) (replicate n DoneSend) = false)
    by (intros c; induction n; simpl; auto).
  rewrite H1, H2, andb_false_r. reflexivity.
Qed.

(** The end of [main]: the handler of its [Done] call waits for a receiver,
    [main] waits for the handler, and [Wait] is never reached. *)
Lemma main_tail_deadlock (cfg : list thread) :
  steps main_tail cfg -> cfg = main_tail.
Proof. apply stuck_steps. reflexivity. Qed.

(** ** Decimal numbers: [FormatInt] and [ParseInt] *)

Lemma div_mod_10 (n : N) :
  exists q r, (n / 10 = q /\ n mod 10 = r /\ n = 10 * q + r /\ r < 10)%N.
Proof.
  exists (n / 10)%N, (n mod 10)%N. repeat split.
  - apply N.div_mod. discriminate.
  - apply N.mod_lt. discriminate.
Qed.

Lemma digit_char (r : N) :
  (r < 10)%N ->
  is_digit (48 + r) = true /\ (48 + r =? 95)%N = false
  /\ digit_val (48 + r) = Some r.
Proof.
  intros H. unfold is_digit, digit_val.
  destruct (N.leb_spec 48 (48 + r)); [|exfalso; lia].
  destruct (N.leb_spec (48 + r) 57); [|exfalso; lia].
  destruct (N.eqb_spec (48 + r) 95); [exfalso; lia|].
  cbn [andb]. repeat split. f_equal. lia.
Qed.

Lemma digits_from_S (f : nat) (n : N) (acc : list N) :
  digits_from (S f) n acc =
  if (n / 10 =? 0)%N then (48 + n mod 10)%N :: acc
  else digits_from f (n / 10) ((48 + n mod 10)%N :: acc).
Proof. reflexivity. Qed.

(** Reading back the digits that [digits_from] produced gives the number. *)
Lemma parse_digits_from (f : nat) (n : N) (acc : list N) :
  (n < 2 ^ N.of_nat f)%N ->
  parse_digits 10 (digits_from f n acc) 0 = parse_digits 10 acc n.
Proof.
  revert n acc. induction f as [|f IH]; intros n acc Hn.
  - simpl in *. replace n with 0%N by lia. reflexivity.
  - rewrite digits_from_S.
    destruct (div_mod_10 n) as (q & r & -> & -> & E & Hr).
    destruct (digit_char r Hr) as (_ & Hu & Hv).
    assert (Hstep : parse_digits 10 ((48 + r)%N :: acc) q = parse_digits 10 acc n).
    { cbn [parse_digits]. rewrite Hu, Hv.
      destruct (N.ltb_spec r 10) as [_|Hge]; [|exfalso; lia].
      f_equal. lia. }
    destruct (N.eqb_spec q 0) as [Hz|Hnz].
    + rewrite <- Hstep, Hz. reflexivity.
    + rewrite IH; [exact Hstep|].
      rewrite Nat2N.inj_succ, N.pow_succ_r' in Hn. lia.
Qed.

Lemma decimal_fuel (n : N) : (n < 2 ^ N.of_nat (S (N.to_nat (N.log2 n))))%N.
Proof.
  rewrite Nat2N.inj_succ, N2Nat.id.
  destruct (N.eq_dec n 0%N) as [->|Hn]; [reflexivity|].
  apply N.log2_spec. lia.
Qed.

Lemma parse_decimal (n : N) : parse_digits 10 (decimal n) 0 = Some n.
Proof. unfold decimal. now rewrite parse_digits_from by apply decimal_fuel. Qed.

(** The digits produced are digits, and the first is not a zero unless the
    number is. *)
Lemma digits_from_shape (f : nat) (n : N) (acc : list N) :
  (n < 2 ^ N.of_nat (S f))%N ->
  exists d ds, digits_from (S f) n acc = d :: ds ++ acc
               /\ is_digit d = true /\ Forall (fun c => is_digit c = true) ds
               /\ (n <> 0%N -> d <> 48%N).
Proof.
  revert n acc. induction f as [|f IH]; intros n acc Hn.
  - rewrite digits_from_S.
    destruct (div_mod_10 n) as (q & r & -> & -> & E & Hr).
    destruct (digit_char r Hr) as (Hd & _ & _).
    exists (48 + r)%N, [].
    assert (Hlt : (n < 2)%N) by (simpl in Hn; lia).
    destruct (N.eqb_spec q 0) as [Hz|Hnz]; [|exfalso; lia].
    repeat split; auto. lia.
  - rewrite digits_from_S.
    destruct (div_mod_10 n) as (q & r & -> & -> & E & Hr).
    destruct (digit_char r Hr) as (Hd & _ & _).
    destruct (N.eqb_spec q 0) as [Hz|Hnz].
    + exists (48 + r)%N, []. repeat split; auto. lia.
    + destruct (IH q ((48 + r)%N :: acc)) as (d & ds & E' & Hdd & Hds & Hnz').
      { rewrite Nat2N.inj_succ, N.pow_succ_r' in Hn. lia. }
      exists d, (ds ++ [(48 + r)%N]). rewrite E'.
      repeat split; auto.
      * now rewrite <- app_assoc.
      * apply Forall_app. split; auto.
Qed.

Lemma decimal_shape (n : N) :
  exists d ds, decimal n = d :: ds
               /\ is_digit d = true /\ Forall (fun c => is_digit c = true) ds
               /\ (n <> 0%N -> d <> 48%N).
Proof.
  unfold decimal.
  destruct (digits_from_shape (N.to_nat (N.log2 n)) n [] (decimal_fuel n))
    as (d & ds & E & H).
  exists d, ds. now rewrite E, app_nil_r.
Qed.

Lemma is_digit_cases (c : N) :
  is_digit c = true ->
  (c = 48 \/ c = 49 \/ c = 50 \/ c = 51 \/ c = 52 \/ c = 53 \/ c = 54
   \/ c = 55 \/ c = 56 \/ c = 57)%N.
Proof.
  unfold is_digit. intros H. apply andb_true_iff in H as [H1 H2].
  apply N.leb_le in H1, H2. lia.
Qed.







(** ** Lines: [Sprintf], [bufio.Scanner], [Sscanf] *)




Lemma FormatInt_chars (z : Z) :
  exists c cs, FormatInt z = c :: cs
    /\ Forall (fun c => is_digit c = true \/ c = 45%N) (c :: cs)
    /\ exists l, last (c :: cs) = Some l /\ is_digit l = true.
Proof.
  unfold FormatInt.
  assert (Hdec : forall n, exists d ds, decimal n = d :: ds
             /\ Forall (fun c => is_digit c = true \/ c = 45%N) (d :: ds)
             /\ exists l, last (d :: ds) = Some l /\ is_digit l = true).
  { intros n. destruct (decimal_shape n) as (d & ds & E & Hd & Hds & _).
    exists d, ds. split; [exact E|]. split.
    - constructor; [now left|]. eapply Forall_impl; [exact Hds|]. now left.
    - destruct (last (d :: ds)) as [l|] eqn:Hl.
      + exists l. split; [reflexivity|].
        apply last_Some_elem_of in Hl.
        assert (HF : Forall (fun c => is_digit c = true) (d :: ds)) by now constructor.
        rewrite Forall_forall in HF. now apply HF.
      + now apply last_None in Hl. }
  destruct (z <? 0).
  - destruct (Hdec (Z.to_N (- z))) as (d & ds & -> & HF & l & Hl & Hld).
    exists 45%N, (d :: ds). split; [reflexivity|]. split.
    + constructor; [now right | exact HF].
    + exists l. split; [exact Hl | exact Hld].
  - apply Hdec.
Qed.

Lemma digit_or_minus_plain (c : N) :
  is_digit c = true \/ c = 45%N ->
  isSpace c = false /\ c <> 10%N /\ c <> 13%N.
Proof.
  intros [H| ->]; [|repeat split; discriminate].
  apply is_digit_cases in H.
  repeat (destruct H as [->|H]; [repeat split; discriminate|]).
  subst. repeat split; discriminate.
Qed.


Lemma dropCR_rev (l : list N) : last l <> Some 13%N -> dropCR (rev l) = rev l.
Proof.
  destruct l as [|c l] using rev_ind; [reflexivity|].
  rewrite last_snoc, rev_app_distr. cbn [rev app dropCR].
  intros H. destruct (N.eqb_spec c 13) as [->|]; [contradiction | reflexivity].
Qed.

Lemma lines_from_line (l cur rest : list N) :
  Forall (fun c => c <> 10%N) l ->
  lines_from cur (l ++ 10%N :: rest)
  = rev (dropCR (rev l ++ cur)) :: lines_from [] rest.
Proof.
  intros H. revert cur. induction H as [|c l Hc _ IH]; intros cur.
  - reflexivity.
  - cbn [app lines_from rev].
    destruct (N.eqb_spec c 10) as [|_]; [contradiction|].
    now rewrite IH, <- app_assoc.
Qed.

(** A plain line followed by a newline is scanned as itself. *)
Lemma scan_lines_plain (l rest : list N) :
  plain_line l -> scan_lines (l ++ 10%N :: rest) = l :: scan_lines rest.
Proof.
  intros [Hnl Hcr]. unfold scan_lines.
  rewrite lines_from_line by assumption.
  now rewrite app_nil_r, dropCR_rev, rev_involutive.
Qed.

Lemma token_plain (key : list N) :
  Forall (fun r => isSpace r = false) key -> Forall (fun c => c <> 10%N) key.
Proof.
  intros H. eapply Forall_impl; [exact H|].
  intros c Hc ->. discriminate Hc.
Qed.

Lemma entry_line_plain (key : list N) (count : Z) :
  no_space key -> plain_line (entry_line key count).
Proof.
  intros Hkey. unfold entry_line, plain_line.
  destruct (FormatInt_chars count) as (c & cs & E & HF & l & Hl & Hld).
  rewrite E. split.
  - apply Forall_app. split; [now apply token_plain|].
    apply Forall_app. split; [repeat constructor; discriminate|].
    eapply Forall_impl; [exact HF|]. intros x Hx.
    now destruct (digit_or_minus_plain x Hx) as (_ & ? & _).
  - cbn [runes app]. rewrite last_app_cons, last_cons, Hl.
    intros [= ->]. discriminate Hld.
Qed.

Lemma Sprintf_entry_line (key : list N) (count : Z) :
  Sprintf_entry key count = entry_line key count ++ [10%N].
Proof. unfold Sprintf_entry, entry_line. now rewrite <- !app_assoc. Qed.

Lemma scan_lines_entries (entries : list (list N * Z)) (rest : list N) :
  Forall (fun kc => no_space kc.1) entries ->
  scan_lines (entries_text entries ++ rest)
  = map (fun kc => entry_line kc.1 kc.2) entries ++ scan_lines rest.
Proof.
  induction 1 as [|[key count] entries Hk _ IH]; [reflexivity|].
  unfold entries_text in *. cbn [map concat fst snd].
  rewrite Sprintf_entry_line, <- !app_assoc. cbn [app].
  rewrite scan_lines_plain by now apply entry_line_plain.
  now rewrite IH.
Qed.

(** ** Tokens and tallies *)

Lemma fields_from_tokens (s cur : list N) :
  Forall (fun r => isSpace r = false) cur ->
  Forall is_token (fields_from cur s).
Proof.
  assert (Hrev : forall c : list N, c <> [] ->
            Forall (fun r => isSpace r = false) c -> is_token (rev c)).
  { intros c Hne Hc. split.
    - intros E. apply Hne. apply (f_equal (@rev N)) in E.
      now rewrite rev_involutive in E.
    - apply Forall_forall. intros x Hx. rewrite Forall_forall in Hc.
      apply Hc. apply list_elem_of_In. apply list_elem_of_In in Hx.
      now apply in_rev. }
  revert cur. induction s as [|r s IH]; intros cur Hcur.
  - destruct cur as [|c cur]; [constructor|].
    constructor; [|constructor]. now apply Hrev.
  - cbn [fields_from]. destruct (isSpace r) eqn:Hr.
    + destruct cur as [|c cur]; [now apply IH|].
      constructor; [now apply Hrev | now apply IH].
    + apply IH. now constructor.
Qed.

(** The fields of a line are tokens. *)
Lemma Fields_tokens (line : list N) : Forall is_token (Fields line).
Proof. apply fields_from_tokens. constructor. Qed.



Lemma wrap64_small (z : Z) : int64_range z -> wrap64 z = z.
Proof.
  unfold int64_range, wrap64. intros H.
  rewrite Z.mod_small by lia. lia.
Qed.




(** ** Files written and read *)

Lemma os_Create_inv (fs fs1 : FS) (name : list N) :
  os_Create fs name = inr fs1 ->
  (name ∉ denied fs)
  /\ files fs1 = <[name := {| content := []; read_fault := false |}]> (files fs)
  /\ denied fs1 = denied fs.
Proof.
  unfold os_Create. destruct (decide (name ∈ denied fs)); [discriminate|].
  intros [= <-]. auto.
Qed.

Lemma Fprint_all (entries : list (list N * Z)) (fs : FS) (name : list N) :
  let fs' := foldl (fun fs kc => Fprint fs name (Sprintf_entry kc.1 kc.2)) fs entries in
  denied fs' = denied fs
  /\ forall name', files fs' !! name'
       = if decide (name = name')
         then (append_text (entries_text entries) <$> files fs !! name')
         else files fs !! name'.
Proof.
  revert fs. induction entries as [|[key count] entries IH]; intros fs; cbn [foldl].
  - split; [reflexivity|]. intros name'.
    destruct (decide (name = name')) as [<-|Hne]; [|reflexivity].
    destruct (files fs !! name) as [[c r]|]; [|reflexivity].
    unfold append_text, entries_text. simpl. now rewrite app_nil_r.
  - destruct (IH (Fprint fs name (Sprintf_entry (key, count).1 (key, count).2)))
      as [Hden Hfiles].
    split; [now rewrite Hden|]. intros name'. rewrite Hfiles.
    unfold Fprint. cbn [files]. rewrite lookup_alter.
    destruct (decide (name = name')) as [<-|Hne]; [|reflexivity].
    destruct (files fs !! name) as [[c r]|]; [|reflexivity].
    unfold append_text, entries_text. simpl. now rewrite <- app_assoc.
Qed.

Section WrittenFiles.

Variable range_order : list (list N * Z) -> list (list N * Z).

Lemma write_counts_denied (fs : FS) (name : list N) (counts : gmap (list N) Z) :
  denied (write_counts range_order fs name counts) = denied fs.
Proof. unfold write_counts. apply Fprint_all. Qed.

Lemma write_counts_other (fs : FS) (name name' : list N) (counts : gmap (list N) Z) :
  name <> name' ->
  files (write_counts range_order fs name counts) !! name' = files fs !! name'.
Proof.
  intros Hne. unfold write_counts.
  destruct (Fprint_all (range_order (map_to_list counts)) fs name) as [_ H].
  rewrite H. now destruct (decide (name = name')).
Qed.

Lemma write_counts_same (fs : FS) (name : list N) (counts : gmap (list N) Z) :
  files (write_counts range_order fs name counts) !! name
  = append_text (entries_text (range_order (map_to_list counts))) <$> files fs !! name.
Proof.
  unfold write_counts.
  destruct (Fprint_all (range_order (map_to_list counts)) fs name) as [_ H].
  rewrite H. now destruct (decide (name = name)).
Qed.

(** A file created and then filled by the [range] loop holds the entries
    of the map, one per line, and nothing else. *)
Lemma created_file (fs fs1 : FS) (name : list N) (counts : gmap (list N) Z) :
  os_Create fs name = inr fs1 ->
  files (write_counts range_order fs1 name counts) !! name
  = Some {| content := entries_text (range_order (map_to_list counts));
            read_fault := false |}.
Proof.
  intros Hc. apply os_Create_inv in Hc as (_ & Hf & _).
  rewrite write_counts_same, Hf, lookup_insert_eq. reflexivity.
Qed.

Lemma created_other (fs fs1 : FS) (name name' : list N) (counts : gmap (list N) Z) :
  os_Create fs name = inr fs1 -> name <> name' ->
  files (write_counts range_order fs1 name counts) !! name' = files fs !! name'.
Proof.
  intros Hc Hne. apply os_Create_inv in Hc as (_ & Hf & _).
  rewrite write_counts_other, Hf, lookup_insert_ne by assumption. reflexivity.
Qed.

End WrittenFiles.

Lemma diagnosis_treatment_names (f g : list N) (i j : Z) :
  diagnosis_filename f i <> treatment_filename g j.
Proof.
  intros H. apply (f_equal (take 5)) in H. vm_compute in H. discriminate H.
Qed.

Lemma diagnosis_not_reduce_out (f : list N) (i : Z) :
  diagnosis_filename f i <> reduce_out.
Proof.
  intros H. apply (f_equal (take 1)) in H. vm_compute in H. discriminate H.
Qed.

Lemma treatment_not_reduce_out (f : list N) (i : Z) :
  treatment_filename f i <> reduce_out.
Proof.
  intros H. apply (f_equal (take 1)) in H. vm_compute in H. discriminate H.
Qed.

(** ** The map task *)

Section MapTaskFacts.

Variable range_order : list (list N * Z) -> list (list N * Z).
Hypothesis range_order_perm : forall l, range_order l ≡ₚ l.




End MapTaskFacts.


(** ** The reduce task *)

Lemma token_no_space (s : list N) : no_space (token s).1.
Proof.
  induction s as [|r s IH]; [constructor|].
  cbn [token]. destruct (isSpace r) eqn:Hr; [constructor|].
  destruct (token s) as [t rest]. now constructor.
Qed.

(** The key that [Sscanf] delivers has no white space in it, whether the
    scan succeeded or not. *)
Lemma Sscanf_no_space (line : list N) : no_space (Sscanf line).1.1.
Proof.
  unfold Sscanf. destruct (SkipSpace line) as [e|[|r s1]]; try constructor.
  pose proof (token_no_space (r :: s1)) as Htok.
  destruct (token (r :: s1)) as [value s2].
  destruct (SkipSpace s2) as [e|s3]; [exact Htok|].
  destruct (scanInt s3) as [e|[count rest]]; exact Htok.
Qed.

Lemma accumulate_no_space (lines : list (list N)) (counts : gmap (list N) Z) :
  no_space_keys counts -> no_space_keys (accumulate lines counts).
Proof.
  revert counts. induction lines as [|line lines IH]; intros counts H; [exact H|].
  unfold accumulate in *. cbn [foldl]. apply IH.
  pose proof (Sscanf_no_space line) as Hk.
  destruct (Sscanf line) as [[key count] err]. unfold count_add.
  now apply map_Forall_insert_2.
Qed.

Lemma reduce_files_no_space (mr0 : MapReduce) (fs : FS) (todo : list nat)
    (d t d' t' : gmap (list N) Z) :
  no_space_keys d -> no_space_keys t ->
  reduce_files mr0 fs todo d t = Ret (inr (d', t')) ->
  no_space_keys d' /\ no_space_keys t'.
Proof.
  revert d t. induction todo as [|i todo IH]; intros d t Hd Ht H.
  - injection H as <- <-. auto.
  - cbn [reduce_files] in H.
    destruct (index (Files mr0) i) as [filename| |]; try discriminate H.
    cbn [bind] in H.
    destruct (os_Open fs (diagnosis_filename _ _)) as [|df]; [discriminate H|].
    destruct (read_fault df); [discriminate H|].
    destruct (os_Open fs (treatment_filename _ _)) as [|tf]; [discriminate H|].
    destruct (read_fault tf); [discriminate H|].
    eapply IH; [| |exact H]; now apply accumulate_no_space.
Qed.

Lemma Fprint_same (fs : FS) (name text : list N) :
  files (Fprint fs name text) !! name = append_text text <$> files fs !! name.
Proof.
  unfold Fprint. cbn [files]. rewrite lookup_alter.
  now destruct (decide (name = name)).
Qed.

Lemma Fprint_other (fs : FS) (name name' text : list N) :
  name <> name' -> files (Fprint fs name text) !! name' = files fs !! name'.
Proof.
  intros Hne. unfold Fprint. cbn [files]. rewrite lookup_alter.
  now destruct (decide (name = name')).
Qed.

(** The text of the report. *)
Lemma write_report_file (range_order : list (list N * Z) -> list (list N * Z))
    (fs fs1 : FS) (d t : gmap (list N) Z) :
  os_Create fs reduce_out = inr fs1 ->
  files (write_report range_order fs1 d t) !! reduce_out
  = Some {| content := (runes "Diagnosis Counts:" ++ [10%N])
                       ++ entries_text (range_order (map_to_list d))
                       ++ (runes "Treatment Counts:" ++ [10%N])
                       ++ entries_text (range_order (map_to_list t));
            read_fault := false |}.
Proof.
  intros Hc. apply os_Create_inv in Hc as (_ & Hf & _).
  unfold write_report.
  rewrite write_counts_same, Fprint_same, write_counts_same, Fprint_same.
  rewrite Hf, lookup_insert_eq. cbn [fmap option_fmap option_map].
  unfold append_text. cbn [content read_fault app].
  now rewrite <- !app_assoc.
Qed.

Lemma write_report_other (range_order : list (list N * Z) -> list (list N * Z))
    (fs fs1 : FS) (d t : gmap (list N) Z) (name : list N) :
  os_Create fs reduce_out = inr fs1 -> name <> reduce_out ->
  files (write_report range_order fs1 d t) !! name = files fs !! name.
Proof.
  intros Hc Hne. apply os_Create_inv in Hc as (_ & Hf & _).
  unfold write_report.
  rewrite write_counts_other, Fprint_other, write_counts_other, Fprint_other
    by congruence.
  rewrite Hf, lookup_insert_ne by congruence. reflexivity.
Qed.

(** What a reduce task that reports [nil] has done. *)
Lemma ReduceTask_success (range_order : list (list N * Z) -> list (list N * Z))
    (task : Z) (mr0 : MapReduce) (fs fs' : FS) :
  ReduceTask range_order task mr0 fs = (fs', Ret None) ->
  exists d t fs1,
    reduce_files mr0 fs (seq 0 (Z.to_nat (NMap mr0))) ∅ ∅ = Ret (inr (d, t))
    /\ os_Create fs reduce_out = inr fs1
    /\ fs' = write_report range_order fs1 d t.
Proof.
  unfold ReduceTask. intros H.
  destruct (reduce_files _ _ _ _ _) as [[err|[d t]]| |]; try discriminate H.
  destruct (os_Create fs reduce_out) as [|fs1] eqn:Hc; [discriminate H|].
  injection H as <-. now exists d, t, fs1.
Qed.

Lemma header_plain :
  plain_line (runes "Diagnosis Counts:") /\ plain_line (runes "Treatment Counts:").
Proof.
  split; (split; [repeat constructor; discriminate | vm_compute; discriminate]).
Qed.

Section ReduceTaskFacts.

Variable range_order : list (list N * Z) -> list (list N * Z).
Hypothesis range_order_perm : forall l, range_order l ≡ₚ l.

Lemma no_space_entries (counts : gmap (list N) Z) :
  no_space_keys counts ->
  Forall (fun kc => no_space kc.1) (range_order (map_to_list counts)).
Proof.
  intros H. rewrite range_order_perm. apply map_Forall_to_list in H.
  eapply Forall_impl; [exact H|]. now intros [k c].
Qed.

(** The report of a reduce task that succeeds, line by line. *)
Lemma reduce_report (task : Z) (mr0 : MapReduce) (fs fs' : FS) :
  ReduceTask range_order task mr0 fs = (fs', Ret None) ->
  exists d t report dE tE,
    reduce_files mr0 fs (seq 0 (Z.to_nat (NMap mr0))) ∅ ∅ = Ret (inr (d, t))
    /\ (forall name, name <> reduce_out -> files fs' !! name = files fs !! name)
    /\ files fs' !! reduce_out = Some report
    /\ dE ≡ₚ map_to_list d /\ tE ≡ₚ map_to_list t
    /\ NoDup (map fst dE) /\ NoDup (map fst tE)
    /\ scan_lines (content report)
       = [runes "Diagnosis Counts:"] ++ map (fun kc => entry_line kc.1 kc.2) dE
         ++ [runes "Treatment Counts:"] ++ map (fun kc => entry_line kc.1 kc.2) tE.
Proof.
  intros H. apply ReduceTask_success in H as (d & t & fs1 & Hred & Hc & ->).
  destruct (reduce_files_no_space _ _ _ ∅ ∅ d t
              (map_Forall_empty _) (map_Forall_empty _) Hred) as [Hd Ht].
  eexists d, t, _, (range_order (map_to_list d)), (range_order (map_to_list t)).
  split; [exact Hred|]. split.
  { intros name Hne. now apply write_report_other. }
  split; [now apply (write_report_file range_order fs)|].
  split; [apply range_order_perm|]. split; [apply range_order_perm|].
  split; [|split].
  - rewrite map_fmap, range_order_perm. apply NoDup_fst_map_to_list.
  - rewrite map_fmap, range_order_perm. apply NoDup_fst_map_to_list.
  - cbn [content]. destruct header_plain as [H1 H2].
    rewrite <- !app_assoc. cbn [app].
    rewrite (scan_lines_plain _ _ H1).
    rewrite scan_lines_entries by now apply no_space_entries.
    rewrite (scan_lines_plain _ _ H2).
    rewrite <- (app_nil_r (entries_text (range_order (map_to_list t)))).
    rewrite scan_lines_entries by now apply no_space_entries.
    change (scan_lines []) with (@nil (list N)). now rewrite app_nil_r.
Qed.

(** C9. A reduce task that succeeds has written one file and no other,
    the report; its lines are the header "Diagnosis Counts:", one line
    [value count] for each diagnosis of its table, each diagnosis once, the
    header "Treatment Counts:", and one line [value count] for each
    treatment of its table. *)
Theorem ReduceTask_report (task : Z) (mr0 : MapReduce) (fs fs' : FS) :
  ReduceTask range_order task mr0 fs = (fs', Ret None) ->
  exists d t report dE tE,
    reduce_files mr0 fs (seq 0 (Z.to_nat (NMap mr0))) ∅ ∅ = Ret (inr (d, t))
    /\ (forall name, name <> reduce_out -> files fs' !! name = files fs !! name)
    /\ files fs' !! reduce_out = Some report
    /\ dE ≡ₚ map_to_list d /\ tE ≡ₚ map_to_list t
    /\ NoDup (map fst dE) /\ NoDup (map fst tE)
    /\ scan_lines (content report)
       = [runes "Diagnosis Counts:"] ++ map (fun kc => entry_line kc.1 kc.2) dE
         ++ [runes "Treatment Counts:"] ++ map (fun kc => entry_line kc.1 kc.2) tE.
Proof. apply reduce_report. Qed.

End ReduceTaskFacts.

Lemma ReduceTask_report_witness :
  let out := ReduceTask (fun l => l) 0 sample_mr two_partitions_mapped in
  out.2 = Ret None /\
  exists d t report dE tE,
    reduce_files sample_mr two_partitions_mapped (seq 0 (Z.to_nat (NMap sample_mr))) ∅ ∅
    = Ret (inr (d, t))
    /\ (forall name, name <> reduce_out ->
          files out.1 !! name = files two_partitions_mapped !! name)
    /\ files out.1 !! reduce_out = Some report
    /\ dE ≡ₚ map_to_list d /\ tE ≡ₚ map_to_list t
    /\ NoDup (map fst dE) /\ NoDup (map fst tE)
    /\ scan_lines (content report)
       = [runes "Diagnosis Counts:"] ++ map (fun kc => entry_line kc.1 kc.2) dE
         ++ [runes "Treatment Counts:"] ++ map (fun kc => entry_line kc.1 kc.2) tE.
Proof.
  intros out.
  assert (Hout : out.2 = Ret None) by (vm_compute; reflexivity).
  split; [exact Hout|].
  apply (ReduceTask_report (fun l => l) (fun l => Permutation_refl l)
           0 sample_mr two_partitions_mapped out.1).
  transitivity (out.1, out.2); [apply surjective_pairing | now rewrite Hout].
Defined.

Lemma reduce_files_readable (mr0 : MapReduce) (fs : FS) (todo : list nat)
    (d t : gmap (list N) Z) :
  (forall i, In i todo ->
     exists filename, Files mr0 !! i = Some filename
       /\ readable fs (diagnosis_filename filename (Z.of_nat i))
       /\ readable fs (treatment_filename filename (Z.of_nat i))) ->
  exists d' t', reduce_files mr0 fs todo d t = Ret (inr (d', t')).
Proof.
  revert d t. induction todo as [|i todo IH]; intros d t H.
  - now exists d, t.
  - destruct (H i (or_introl eq_refl))
      as (filename & Hf & (df & Hdf & Hdr) & (tf & Htf & Htr)).
    cbn [reduce_files]. rewrite (index_lookup _ _ _ Hf). cbn [bind].
    unfold os_Open. rewrite Hdf, Hdr, Htf, Htr.
    apply IH. intros j Hj. apply H. now right.
Qed.

(** C6. A reduce task whose intermediate files can all be opened and read
    to their end, and which may create its report, reports no error,
    whatever the lines of those files are: that [Sscanf] could not parse a
    line is nowhere looked at. *)
Theorem ReduceTask_reads_any_line (range_order : list (list N * Z) -> list (list N * Z))
    (task : Z) (mr0 : MapReduce) (fs : FS) :
  (forall i, (i < Z.to_nat (NMap mr0))%nat ->
     exists filename, Files mr0 !! i = Some filename
       /\ readable fs (diagnosis_filename filename (Z.of_nat i))
       /\ readable fs (treatment_filename filename (Z.of_nat i))) ->
  reduce_out ∉ denied fs ->
  (ReduceTask range_order task mr0 fs).2 = Ret None.
Proof.
  intros Hfiles Hden. unfold ReduceTask.
  destruct (reduce_files_readable mr0 fs (seq 0 (Z.to_nat (NMap mr0))) ∅ ∅)
    as (d & t & ->).
  { intros i Hi. apply Hfiles. apply in_seq in Hi. lia. }
  unfold os_Create. now destruct (decide (reduce_out ∈ denied fs)).
Qed.

Lemma ReduceTask_reads_any_line_witness :
  let out := ReduceTask (fun l => l) 0 one_mr damaged_intermediate in
  (exists e1 e2 e3,
     map Sscanf [runes "cold"; runes "ache x7"; []]
     = [(runes "cold", 0, Some e1); (runes "ache", 0, Some e2); ([], 0, Some e3)])
  /\ out.2 = Ret None
  /\ report_of out.1
     = Some [runes "Diagnosis Counts:"; runes "flu 2"; runes "ache 0"; runes "cold 0";
             runes " 0"; runes "Treatment Counts:"; runes "rest 2"].
Proof.
  intros out. split; [|split].
  - now exists ErrEOF, ErrExpectedInteger, ErrEOF.
  - apply (ReduceTask_reads_any_line (fun l => l) 0 one_mr damaged_intermediate).
    + intros i Hi. assert (i = 0%nat) as -> by (simpl in Hi; lia).
      exists (runes "a.txt"). split; [reflexivity|].
      split; eexists; (split; [vm_compute; reflexivity | reflexivity]).
    + vm_compute. set_solver.
  - vm_compute. reflexivity.
Defined.

(** ** Adding up the tables *)

Lemma wrap64_add_l (x y : Z) : wrap64 (wrap64 x + y) = wrap64 (x + y).
Proof.
  unfold wrap64.
  replace ((x + 2 ^ 63) mod 2 ^ 64 - 2 ^ 63 + y + 2 ^ 63)
    with ((x + 2 ^ 63) mod 2 ^ 64 + y) by lia.
  rewrite Z.add_mod_idemp_l by discriminate.
  f_equal. f_equal. lia.
Qed.






Lemma counted_spec (ds : list (gmap (list N) Z)) (V : list N) :
  counted ds V = true <-> exists d, d ∈ ds /\ is_Some (d !! V).
Proof.
  unfold counted. rewrite existsb_exists. split.
  - intros (d & Hin & Hd). exists d. split; [now apply list_elem_of_In|].
    now apply bool_decide_eq_true in Hd.
  - intros (d & Hin & Hd). exists d. split; [now apply list_elem_of_In|].
    now apply bool_decide_eq_true.
Qed.


Section Aggregation.

Variable range_order : list (list N * Z) -> list (list N * Z).
Hypothesis range_order_perm : forall l, range_order l ≡ₚ l.





End Aggregation.



(** ** The phase runner *)

Section RunnerFacts.

Variable range_order : list (list N * Z) -> list (list N * Z).
Variable schedule : list (nat * list N) -> list (nat * list N).

(** A map task, however it ends, leaves the report file alone. *)
Lemma MapTask_keeps_report (filename : list N) (task : Z) (mr0 : MapReduce) (fs : FS) :
  files (MapTask range_order filename task mr0 fs).1 !! reduce_out
  = files fs !! reduce_out.
Proof.
  unfold MapTask.
  destruct (os_Open fs filename) as [|f]; [reflexivity|].
  destruct (tally _ _ _) as [[d t]| |]; try reflexivity.
  destruct (read_fault f); [reflexivity|].
  destruct (os_Create fs _) as [|fs1] eqn:H1; [reflexivity|].
  pose proof (created_other range_order _ _ _ reduce_out d H1
                (diagnosis_not_reduce_out _ _)) as Hd.
  destruct (os_Create (write_counts _ _ _ _) _) as [|fs3] eqn:H3; [exact Hd|].
  cbn [fst].
  rewrite (created_other range_order _ _ _ reduce_out t H3
             (treatment_not_reduce_out _ _)).
  exact Hd.
Qed.

Lemma run_tasks_keep_report
    (tasks : list (event * (FS -> FS * outcome (option error)))) :
  Forall (fun et => is_RanReduce et.1 = false
                    /\ forall fs, files (et.2 fs).1 !! reduce_out = files fs !! reduce_out)
         tasks ->
  forall fs trace results fs' trace' r,
    Forall (fun ev => is_RanReduce ev = false) trace ->
    run_tasks tasks fs trace results = (fs', trace', r) ->
    files fs' !! reduce_out = files fs !! reduce_out
    /\ Forall (fun ev => is_RanReduce ev = false) trace'.
Proof.
  induction 1 as [|[ev task] tasks [Hev Htask] _ IH];
    intros fs trace results fs' trace' r Htrace Hrun.
  - injection Hrun as <- <- <-. auto.
  - cbn [run_tasks] in Hrun. specialize (Htask fs). cbn [fst snd] in *.
    assert (Htrace' : Forall (fun ev => is_RanReduce ev = false) (trace ++ [ev]))
      by (apply Forall_app; split; [assumption | now constructor]).
    destruct (task fs) as [fs1 [res| |]]; cbn [fst] in Htask.
    + destruct (IH _ _ _ _ _ _ Htrace' Hrun) as [Hf Ht].
      split; [now rewrite Hf | exact Ht].
    + injection Hrun as <- <- <-. auto.
    + injection Hrun as <- <- <-. auto.
Qed.

Lemma map_phase_keeps_report (fs fs1 : FS) (trace1 : list event)
    (r1 : outcome (list (option error))) :
  map_phase range_order schedule fs = (fs1, trace1, r1) ->
  files fs1 !! reduce_out = files fs !! reduce_out
  /\ Forall (fun ev => is_RanReduce ev = false) trace1.
Proof.
  unfold map_phase. apply run_tasks_keep_report; [|constructor].
  apply Forall_forall. intros et Het.
  apply list_elem_of_In, in_map_iff in Het as ([i filename] & <- & _).
  split; [reflexivity|]. intros fs0. apply MapTask_keeps_report.
Qed.

Lemma first_error_some (results : list (option error)) :
  (exists err, Some err ∈ results) -> exists err, first_error results = Some err.
Proof.
  intros [err Hin]. induction results as [|[e|] results IH].
  - now apply elem_of_nil in Hin.
  - now exists e.
  - apply IH. apply elem_of_cons in Hin as [Hin|Hin]; [discriminate | exact Hin].
Qed.

(** C7. When the map phase fails -- a map task sent an error, or one
    panicked, as on a line of fewer than six tokens -- [main] ends there:
    with [log.Fatal] on the first error sent, or with the panic; no reduce
    task has run, and the report file is as it was before the run. *)
Theorem map_failure_aborts_run (fs fs1 : FS) (trace1 : list event)
    (r1 : outcome (list (option error))) :
  map_phase range_order schedule fs = (fs1, trace1, r1) ->
  failed r1 ->
  exists status,
    main range_order schedule None fs = (fs1, trace1, status)
    /\ match r1 with
       | Ret _ => exists err, status = ExitFatal "Map task error:" err
       | Panic p => status = ExitPanic p
       | Block => status = ExitBlock
       end
    /\ status <> GoesToDone
    /\ Forall (fun ev => is_RanReduce ev = false) trace1
    /\ files fs1 !! reduce_out = files fs !! reduce_out.
Proof.
  intros Hmap Hfail.
  destruct (map_phase_keeps_report _ _ _ _ Hmap) as [Hrep Htrace].
  unfold main. rewrite NewMaster_returns by (cbn; lia). rewrite Hmap.
  destruct r1 as [results|p|].
  - destruct (first_error_some results Hfail) as [err ->].
    exists (ExitFatal "Map task error:" err).
    split; [reflexivity|]. split; [now exists err|]. split; [discriminate|]. auto.
  - exists (ExitPanic p). split; [reflexivity|]. split; [reflexivity|].
    split; [discriminate|]. auto.
  - exists ExitBlock. split; [reflexivity|]. split; [reflexivity|].
    split; [discriminate|]. auto.
Qed.

End RunnerFacts.

Lemma map_failure_aborts_run_witness :
  let out := map_phase (fun l => l) (fun l => l) short_line_partition in
  out.2 = Panic (IndexOutOfRange 4 4) /\
  exists status,
    main (fun l => l) (fun l => l) None short_line_partition = (out.1.1, out.1.2, status)
    /\ status = ExitPanic (IndexOutOfRange 4 4)
    /\ status <> GoesToDone
    /\ Forall (fun ev => is_RanReduce ev = false) out.1.2
    /\ files out.1.1 !! reduce_out = files short_line_partition !! reduce_out.
Proof.
  intros out.
  assert (Hout : out.2 = Panic (IndexOutOfRange 4 4)) by (vm_compute; reflexivity).
  split; [exact Hout|].
  assert (Hrun : map_phase (fun l => l) (fun l => l) short_line_partition
                 = (out.1.1, out.1.2, Panic (IndexOutOfRange 4 4))).
  { transitivity (out.1.1, out.1.2, out.2); [|now rewrite Hout].
    subst out. now destruct (map_phase _ _ _) as [[? ?] ?]. }
  exact (map_failure_aborts_run (fun l => l) (fun l => l) short_line_partition
           out.1.1 out.1.2 (Panic (IndexOutOfRange 4 4)) Hrun I).
Defined.

(** ** The names of the intermediate files *)

Lemma first_split {A} (x : A) (a b c d : list A) :
  a ++ x :: b = c ++ x :: d -> x ∉ a -> x ∉ c -> a = c /\ b = d.
Proof.
  revert c. induction a as [|y a IH]; intros [|z c] H Ha Hc; simpl in H.
  - injection H as <-. auto.
  - injection H as <- _. exfalso. apply Hc. left.
  - injection H as -> _. exfalso. apply Ha. left.
  - injection H as -> H. apply not_elem_of_cons in Ha as [_ Ha].
    apply not_elem_of_cons in Hc as [_ Hc].
    destruct (IH c H Ha Hc) as [-> ->]. auto.
Qed.

(** Where a list splits at the last occurrence of [x]. *)
Lemma last_split {A} (x : A) (a b c d : list A) :
  a ++ x :: b = c ++ x :: d -> x ∉ b -> x ∉ d -> a = c /\ b = d.
Proof.
  intros H Hb Hd. apply (f_equal (@rev A)) in H.
  rewrite !rev_app_distr in H. cbn [rev] in H. rewrite <- !app_assoc in H.
  cbn [app] in H.
  apply first_split in H as [H1 H2].
  - apply (f_equal (@rev A)) in H1, H2. rewrite !rev_involutive in H1, H2. auto.
  - intros Hin. apply Hb. apply list_elem_of_In. apply list_elem_of_In in Hin.
    now apply in_rev.
  - intros Hin. apply Hd. apply list_elem_of_In. apply list_elem_of_In in Hin.
    now apply in_rev.
Qed.

Lemma decimal_inj (n m : N) : decimal n = decimal m -> n = m.
Proof.
  intros H. pose proof (parse_decimal n) as Hn. rewrite H, parse_decimal in Hn.
  now injection Hn.
Qed.

Lemma FormatInt_nat_inj (i j : nat) :
  FormatInt (Z.of_nat i) = FormatInt (Z.of_nat j) -> i = j.
Proof.
  unfold FormatInt.
  destruct (Z.ltb_spec (Z.of_nat i) 0) as [|_]; [lia|].
  destruct (Z.ltb_spec (Z.of_nat j) 0) as [|_]; [lia|].
  intros H. apply decimal_inj in H. lia.
Qed.

(** The tail of an intermediate file name, after the last dash. *)
Lemma name_tail_no_dash (i : nat) :
  45%N ∉ FormatInt (Z.of_nat i) ++ runes ".txt".
Proof.
  unfold FormatInt. destruct (Z.ltb_spec (Z.of_nat i) 0) as [|_]; [lia|].
  destruct (decimal_shape (Z.to_N (Z.of_nat i))) as (d & ds & -> & Hd & Hds & _).
  intros Hin. apply elem_of_app in Hin as [Hin|Hin].
  - assert (HF : Forall (fun c => is_digit c = true) (d :: ds)) by now constructor.
    rewrite Forall_forall in HF. specialize (HF _ Hin). discriminate HF.
  - cbn [runes] in Hin.
    repeat (apply elem_of_cons in Hin as [Hin|Hin]; [discriminate Hin|]).
    now apply elem_of_nil in Hin.
Qed.

Lemma name_tail_inj (f g : list N) (i j : nat) :
  f ++ runes "-" ++ FormatInt (Z.of_nat i) ++ runes ".txt"
  = g ++ runes "-" ++ FormatInt (Z.of_nat j) ++ runes ".txt" ->
  f = g /\ i = j.
Proof.
  intros H. cbn [runes app] in H. change (N_of_ascii "-") with 45%N in H.
  apply last_split in H as [Hf Ht]; try apply name_tail_no_dash.
  split; [exact Hf|]. apply app_inv_tail in Ht. now apply FormatInt_nat_inj.
Qed.

Lemma diagnosis_filename_inj (f g : list N) (i j : nat) :
  diagnosis_filename f (Z.of_nat i) = diagnosis_filename g (Z.of_nat j) ->
  f = g /\ i = j.
Proof.
  unfold diagnosis_filename. intros H. apply app_inv_head in H.
  now apply name_tail_inj.
Qed.

Lemma treatment_filename_inj (f g : list N) (i j : nat) :
  treatment_filename f (Z.of_nat i) = treatment_filename g (Z.of_nat j) ->
  f = g /\ i = j.
Proof.
  unfold treatment_filename. intros H. apply app_inv_head in H.
  now apply name_tail_inj.
Qed.

(** ** A whole run *)




Section WholeRun.

Variable range_order : list (list N * Z) -> list (list N * Z).
Hypothesis range_order_perm : forall l, range_order l ≡ₚ l.

Variable mr0 : MapReduce.

(** A map task, however it ends, touches no file but its own two. *)
Lemma MapTask_other_files (filename : list N) (task : Z) (fs : FS) (name : list N) :
  name <> diagnosis_filename filename task ->
  name <> treatment_filename filename task ->
  files (MapTask range_order filename task mr0 fs).1 !! name = files fs !! name.
Proof.
  intros Hd Ht. unfold MapTask.
  destruct (os_Open fs filename) as [|f]; [reflexivity|].
  destruct (tally _ _ _) as [[d t]| |]; try reflexivity.
  destruct (read_fault f); [reflexivity|].
  destruct (os_Create fs _) as [|fs1] eqn:H1; [reflexivity|].
  pose proof (created_other range_order _ _ _ name d H1 (not_eq_sym Hd)) as Hd'.
  destruct (os_Create (write_counts _ _ _ _) _) as [|fs3] eqn:H3; [exact Hd'|].
  cbn [fst].
  rewrite (created_other range_order _ _ _ name t H3 (not_eq_sym Ht)).
  exact Hd'.
Qed.





End WholeRun.


Section WholeRunReport.

Variable range_order : list (list N * Z) -> list (list N * Z).
Hypothesis range_order_perm : forall l, range_order l ≡ₚ l.
Variable schedule : list (nat * list N) -> list (nat * list N).
Hypothesis schedule_perm : forall l, schedule l ≡ₚ l.




End WholeRunReport.

(** * Further properties of the code *)

(** ** The master: creation and leases *)

(** X1. [NewMaster] panics in [make] when a count is negative, and otherwise
    returns the master whose channels hold their indices in ascending
    order; it never blocks on its own sends. *)
Theorem NewMaster_outcome (mr0 : MapReduce) :
  NewMaster mr0 =
  if (NMap mr0 <? 0) || (NReduce mr0 <? 0) then Panic MakechanSizeOutOfRange
  else Ret {| mr := mr0;
              mapTasks := {| cap := Z.to_nat (NMap mr0); buf := pool (NMap mr0) |};
              reduceTasks := {| cap := Z.to_nat (NReduce mr0);
                                buf := pool (NReduce mr0) |} |}.
Proof.
  destruct (Z.ltb_spec (NMap mr0) 0) as [Hm|Hm].
  { unfold NewMaster, make_chan.
    destruct (Z.ltb_spec (NMap mr0) 0); [reflexivity | lia]. }
  destruct (Z.ltb_spec (NReduce mr0) 0) as [Hr|Hr].
  { unfold NewMaster, make_chan.
    destruct (Z.ltb_spec (NMap mr0) 0); [lia|].
    destruct (Z.ltb_spec (NReduce mr0) 0); [reflexivity | lia]. }
  now apply NewMaster_returns.
Qed.

Lemma serve_all_state (on_map : bool) (calls : list call) (m : Master) :
  buf (tasks_of on_map (serve_all m calls).1)
  = drop (calls_on on_map calls) (buf (tasks_of on_map m)).
Proof.
  revert m. induction calls as [|c calls IH]; intros m.
  - reflexivity.
  - cbn [serve_all]. destruct (serve m c) as [m1 r] eqn:Hs.
    specialize (IH m1). destruct (serve_all m1 calls) as [m2 rs]. cbn [fst] in *.
    rewrite IH. unfold calls_on. cbn [List.filter].
    destruct c, on_map; cbn [is_map Bool.eqb length serve tasks_of] in *;
      unfold AssignMapTask, AssignReduceTask, try_recv in Hs.
    + destruct (buf (mapTasks m)) as [|v rest] eqn:Hb; injection Hs as <- _.
      * rewrite Hb. now rewrite !drop_nil.
      * reflexivity.
    + destruct (buf (mapTasks m)) as [|v rest] eqn:Hb; now injection Hs as <- _.
    + destruct (buf (reduceTasks m)) as [|v rest] eqn:Hb; now injection Hs as <- _.
    + destruct (buf (reduceTasks m)) as [|v rest] eqn:Hb; injection Hs as <- _.
      * rewrite Hb. now rewrite !drop_nil.
      * reflexivity.
Qed.

Lemma leased_taken (l : list Z) (k : nat) (e : error) :
  leased (map inr l ++ replicate k (inl e)) = l.
Proof.
  unfold leased. rewrite omap_app.
  replace (omap _ (replicate k (inl e))) with (@nil Z)
    by (induction k; simpl; auto).
  rewrite app_nil_r. induction l; simpl; [reflexivity | now f_equal].
Qed.

(** X2. Whatever lease calls a fresh master has served, the indices handed
    out so far on a pool, followed by those still waiting in its channel,
    are the indices [0 .. n-1] in order: no task is lost, invented or
    reordered. *)
Theorem leases_conserve_pool (on_map : bool) (mr0 : MapReduce) (m : Master)
    (calls : list call) :
  NewMaster mr0 = Ret m ->
  leased (replies_to on_map calls (serve_all m calls).2)
  ++ buf (tasks_of on_map (serve_all m calls).1)
  = pool (if on_map then NMap mr0 else NReduce mr0).
Proof.
  intros Hnew. destruct (NewMaster_inv _ _ Hnew) as [Hmap Hred].
  rewrite serve_all_replies, serve_all_state, leased_taken, take_drop.
  destruct on_map; assumption.
Qed.

Lemma leases_conserve_pool_witness :
  NewMaster sample_mr = Ret sample_master /\
  leased (replies_to true [LeaseMap; LeaseReduce]
            (serve_all sample_master [LeaseMap; LeaseReduce]).2)
  ++ buf (tasks_of true (serve_all sample_master [LeaseMap; LeaseReduce]).1)
  = pool 2.
Proof.
  split; [reflexivity|].
  apply (leases_conserve_pool true sample_mr sample_master [LeaseMap; LeaseReduce]).
  reflexivity.
Defined.

(** X3. The replies on the map pool depend only on how many map leases were
    asked for, not on the reduce leases served in between. *)
Theorem map_leases_ignore_reduce_leases (m : Master) (calls1 calls2 : list call) :
  calls_on true calls1 = calls_on true calls2 ->
  replies_to true calls1 (serve_all m calls1).2
  = replies_to true calls2 (serve_all m calls2).2.
Proof. intros H. now rewrite !serve_all_replies, H. Qed.

Lemma map_leases_ignore_reduce_leases_witness :
  replies_to true [LeaseMap; LeaseReduce; LeaseReduce; LeaseMap]
    (serve_all sample_master [LeaseMap; LeaseReduce; LeaseReduce; LeaseMap]).2
  = replies_to true [LeaseMap; LeaseMap] (serve_all sample_master [LeaseMap; LeaseMap]).2.
Proof.
  apply (map_leases_ignore_reduce_leases sample_master
           [LeaseMap; LeaseReduce; LeaseReduce; LeaseMap] [LeaseMap; LeaseMap]).
  reflexivity.
Defined.

(** X4. On a fresh master with a reduce pool of size n, every lease on the
    reduce pool is answered; the first n succeed, each later one fails with
    the error "no more reduce tasks", and no index is handed out twice. *)
Theorem lease_exhausts_reduce_pool (mr0 : MapReduce) (m : Master) (calls : list call) :
  NewMaster mr0 = Ret m ->
  let n := Z.to_nat (NReduce mr0) in
  let replies := replies_to false calls (serve_all m calls).2 in
  length replies = calls_on false calls
  /\ (forall k, (k < n)%nat -> (k < calls_on false calls)%nat ->
        replies !! k = Some (inr (Z.of_nat k)))
  /\ (forall k, (n <= k)%nat -> (k < calls_on false calls)%nat ->
        replies !! k = Some (inl (Errorf "no more reduce tasks")))
  /\ NoDup (leased replies).
Proof.
  intros Hnew n replies. subst replies.
  rewrite (fresh_master_replies false _ _ _ Hnew). fold n.
  set (cnt := calls_on false calls).
  split; [|split; [|split]].
  - rewrite length_app, length_map, length_seq, length_replicate. lia.
  - intros k Hk Hc.
    rewrite lookup_app_l by (rewrite length_map, length_seq; lia).
    rewrite map_fmap, list_lookup_fmap, lookup_seq_lt by lia.
    reflexivity.
  - intros k Hk Hc.
    rewrite lookup_app_r by (rewrite length_map, length_seq; lia).
    rewrite length_map, length_seq.
    apply lookup_replicate. split; [reflexivity | lia].
  - rewrite leased_successes, map_fmap.
    apply NoDup_fmap_2; [intros x y; lia | apply NoDup_seq].
Qed.

Lemma lease_exhausts_reduce_pool_witness :
  NewMaster sample_mr = Ret sample_master /\
  let calls := [LeaseReduce; LeaseMap; LeaseReduce] in
  let replies := replies_to false calls (serve_all sample_master calls).2 in
  length replies = 2%nat
  /\ (forall k, (k < 1)%nat -> (k < 2)%nat -> replies !! k = Some (inr (Z.of_nat k)))
  /\ (forall k, (1 <= k)%nat -> (k < 2)%nat ->
        replies !! k = Some (inl (Errorf "no more reduce tasks")))
  /\ NoDup (leased replies).
Proof.
  split; [reflexivity|].
  apply (lease_exhausts_reduce_pool sample_mr sample_master
           [LeaseReduce; LeaseMap; LeaseReduce]).
  reflexivity.
Defined.

(** ** The completion gate: where runs end *)

Lemma existsb_find {A} (p : A -> bool) (l : list A) :
  existsb p l = true -> exists i x, l !! i = Some x /\ p x = true.
Proof.
  intros H. apply existsb_exists in H as (x & Hin & Hp).
  apply list_elem_of_In, list_elem_of_lookup_1 in Hin as [i Hi].
  now exists i, x.
Qed.

(** [can_step] sees only steps that exist. *)
Lemma can_step_step (cfg : list thread) :
  can_step cfg = true -> exists cfg', step cfg cfg'.
Proof.
  unfold can_step. intros H. apply orb_true_iff in H as [H|H].
  - apply andb_true_iff in H as [Hs Hr].
    apply existsb_find in Hs as (i & x & Hi & Hx).
    apply existsb_find in Hr as (j & y & Hj & Hy).
    destruct x; try discriminate Hx. destruct y; try discriminate Hy.
    eexists. now apply (step_rendezvous cfg i j).
  - apply existsb_find in H as (k & x & Hk & Hx).
    destruct x as [| | | |h]; try discriminate Hx.
    destruct (cfg !! h) as [[|reply| | |]|] eqn:Hh; try discriminate Hx.
    eexists. now apply (step_reply cfg k h reply).
Qed.

Lemma existsb_count (p : thread -> bool) (cfg : list thread) :
  existsb p cfg = false -> count p cfg = 0%nat.
Proof.
  induction cfg as [|t cfg IH]; [reflexivity|].
  cbn [existsb]. intros H. apply orb_false_iff in H as [Ht Hc].
  rewrite count_cons, Ht, (IH Hc). reflexivity.
Qed.

Lemma gate_no_caller (n w : nat) (cfg : list thread) :
  steps (gate_calls n w) cfg -> count is_CallDone cfg = 0%nat.
Proof.
  intros Hsteps. remember (gate_calls n w) as cfg0 eqn:E.
  induction Hsteps as [cfg | cfg cfg1 cfg2 _ IH Hstep]; subst.
  - unfold gate_calls. rewrite count_app, !count_replicate. reflexivity.
  - specialize (IH eq_refl). apply step_counts in Hstep. lia.
Qed.

(** X5. With [n] calls of [Done] and [w] calls of [Wait], a run that can go
    no further has let exactly [min n w] calls of each return: every call
    of the scarcer kind has returned, and the surplus of the other kind is
    blocked for good. *)
Theorem gate_runs_end (n w : nat) (cfg : list thread) :
  steps (gate_calls n w) cfg -> can_step cfg = false ->
  count is_DoneReturned cfg = Nat.min n w
  /\ count is_WaitReturned cfg = Nat.min n w
  /\ count is_DoneSend cfg = (n - w)%nat
  /\ count is_WaitRecv cfg = (w - n)%nat.
Proof.
  intros Hsteps Hstuck.
  pose proof (gate_counts n w cfg Hsteps) as (H1 & H2 & H3).
  pose proof (gate_no_caller n w cfg Hsteps) as H4.
  unfold can_step in Hstuck. apply orb_false_iff in Hstuck as [Hstuck _].
  apply andb_false_iff in Hstuck as [Hs|Hr].
  - apply existsb_count in Hs. lia.
  - apply existsb_count in Hr. lia.
Qed.

Lemma gate_runs_end_witness :
  steps (gate_calls 2 1) [DoneReturned done_reply; DoneSend; WaitReturned]
  /\ can_step [DoneReturned done_reply; DoneSend; WaitReturned] = false
  /\ count is_DoneReturned [DoneReturned done_reply; DoneSend; WaitReturned] = 1%nat
  /\ count is_WaitReturned [DoneReturned done_reply; DoneSend; WaitReturned] = 1%nat
  /\ count is_DoneSend [DoneReturned done_reply; DoneSend; WaitReturned] = 1%nat
  /\ count is_WaitRecv [DoneReturned done_reply; DoneSend; WaitReturned] = 0%nat.
Proof.
  assert (H : steps (gate_calls 2 1) [DoneReturned done_reply; DoneSend; WaitReturned]).
  { eapply steps_step; [apply steps_refl|].
    apply (step_rendezvous (gate_calls 2 1) 0 2); reflexivity. }
  split; [exact H|]. split; [reflexivity|].
  exact (gate_runs_end 2 1 _ H eq_refl).
Defined.

(** X6. The end of [main]: once [main] has issued its call of [Done], nothing
    moves any more.  The handler waits at its send for a receiver, [main]
    waits for the handler's reply, and the [Wait] that would receive is
    never reached: the process hangs after a successful run. *)
Theorem main_never_returns (cfg : list thread) :
  steps main_tail cfg ->
  cfg = [CallDone 1; DoneSend] /\ forall cfg', ~ step cfg cfg'.
Proof.
  intros H. apply stuck_steps in H; [|reflexivity]. subst cfg.
  split; [reflexivity|]. intros cfg' Hstep.
  apply step_can_step in Hstep. discriminate Hstep.
Qed.

Lemma main_never_returns_witness :
  steps main_tail main_tail /\
  main_tail = [CallDone 1; DoneSend] /\ forall cfg', ~ step main_tail cfg'.
Proof.
  split; [apply steps_refl|].
  exact (main_never_returns main_tail (steps_refl main_tail)).
Defined.

(** ** The record parser: lines built from tokens *)

Lemma fields_from_word (t cur s : list N) :
  no_space t -> fields_from cur (t ++ s) = fields_from (rev t ++ cur) s.
Proof.
  intros H. revert cur. induction H as [|r t Hr _ IH]; intros cur; [reflexivity|].
  cbn [app fields_from rev]. rewrite Hr, IH. now rewrite <- app_assoc.
Qed.

(** A token followed by a space is the first field of the line. *)
Lemma Fields_token_space (t s : list N) :
  is_token t -> Fields (t ++ 32%N :: s) = t :: Fields s.
Proof.
  intros [Hne Ht]. unfold Fields. rewrite fields_from_word by assumption.
  rewrite app_nil_r. cbn [fields_from]. change (isSpace 32) with true. cbv iota.
  destruct (rev t) as [|c cur] eqn:E.
  - exfalso. apply Hne. apply (f_equal (@rev N)) in E.
    now rewrite rev_involutive in E.
  - rewrite <- E. now rewrite rev_involutive.
Qed.

Lemma Fields_token (t : list N) : is_token t -> Fields t = [t].
Proof.
  intros [Hne Ht]. unfold Fields.
  rewrite <- (app_nil_r t) at 1. rewrite fields_from_word by assumption.
  rewrite app_nil_r. cbn [fields_from].
  destruct (rev t) as [|c cur] eqn:E.
  - exfalso. apply Hne. apply (f_equal (@rev N)) in E.
    now rewrite rev_involutive in E.
  - rewrite <- E. now rewrite rev_involutive.
Qed.

(** X7. A line made of six tokens separated by single spaces is parsed to
    the record of those tokens; and so is the line with anything added
    after a further space, which is not looked at. *)
Theorem ParseEHR_of_tokens (id first last age diagnosis treatment rest : list N) :
  is_token id -> is_token first -> is_token last -> is_token age ->
  is_token diagnosis -> is_token treatment ->
  let line := id ++ 32%N :: first ++ 32%N :: last ++ 32%N :: age ++ 32%N
              :: diagnosis ++ 32%N :: treatment in
  let record := {| PatientID := id; Name := first ++ [32%N] ++ last; Age := age;
                   Diagnosis := diagnosis; Treatment := treatment |} in
  ParseEHR line = Ret record
  /\ ParseEHR (line ++ 32%N :: rest) = Ret record.
Proof.
  intros H0 H1 H2 H3 H4 H5 line record. subst line. split.
  - unfold ParseEHR.
    rewrite !Fields_token_space by assumption. rewrite Fields_token by assumption.
    reflexivity.
  - unfold ParseEHR. rewrite <- !app_assoc. cbn [app].
    repeat (rewrite Fields_token_space by assumption;
            rewrite <- ?app_assoc; cbn [app]).
    reflexivity.
Qed.

Lemma ParseEHR_of_tokens_witness :
  ParseEHR (runes "17 Ada Lovelace 36 flu rest")
  = Ret {| PatientID := runes "17"; Name := runes "Ada Lovelace"; Age := runes "36";
           Diagnosis := runes "flu"; Treatment := runes "rest" |}
  /\ ParseEHR (runes "17 Ada Lovelace 36 flu rest" ++ 32%N :: runes "at home")
     = Ret {| PatientID := runes "17"; Name := runes "Ada Lovelace"; Age := runes "36";
              Diagnosis := runes "flu"; Treatment := runes "rest" |}.
Proof.
  assert (Htok : forall s : string,
            runes s <> [] -> forallb (fun r => negb (isSpace r)) (runes s) = true ->
            is_token (runes s)).
  { intros s Hne Hall. split; [exact Hne|].
    apply Forall_forall. intros r Hr.
    rewrite forallb_forall in Hall. apply list_elem_of_In in Hr.
    specialize (Hall r Hr). now destruct (isSpace r). }
  apply (ParseEHR_of_tokens (runes "17") (runes "Ada") (runes "Lovelace")
           (runes "36") (runes "flu") (runes "rest") (runes "at home"));
    apply Htok; (discriminate || reflexivity).
Defined.

(** X8. Whatever line it was read from, a record that [ParseEHR] returns has
    an id, an age, a diagnosis and a treatment that are tokens, and a name
    made of two tokens with one space between them. *)
Theorem ParseEHR_fields_are_tokens (line : list N) (ehr : EHR) :
  ParseEHR line = Ret ehr ->
  is_token (PatientID ehr) /\ is_token (Age ehr)
  /\ is_token (Diagnosis ehr) /\ is_token (Treatment ehr)
  /\ exists first last, is_token first /\ is_token last
       /\ Name ehr = first ++ [32%N] ++ last.
Proof.
  intros H. pose proof (Fields_tokens line) as HF. unfold ParseEHR in H.
  destruct (Fields line) as [|f0 [|f1 [|f2 [|f3 [|f4 [|f5 rest]]]]]];
    try discriminate H.
  injection H as <-. cbn [PatientID Name Age Diagnosis Treatment].
  repeat (apply Forall_cons in HF as [? HF]).
  repeat split; try assumption; try (now destruct H); try (now destruct H2);
    try (now destruct H3); try (now destruct H4).
  exists f1, f2. auto.
Qed.

Lemma ParseEHR_fields_are_tokens_witness :
  let ehr := {| PatientID := runes "17"; Name := runes "Ada Lovelace"; Age := runes "36";
                Diagnosis := runes "flu"; Treatment := runes "rest" |} in
  is_token (PatientID ehr) /\ is_token (Age ehr)
  /\ is_token (Diagnosis ehr) /\ is_token (Treatment ehr)
  /\ exists first last, is_token first /\ is_token last
       /\ Name ehr = first ++ [32%N] ++ last.
Proof.
  apply (ParseEHR_fields_are_tokens (runes "17 Ada Lovelace 36 flu rest")).
  reflexivity.
Defined.

(** ** The map task: what it counts, when it panics, what it touches *)

Lemma ParseEHR_short (line : list N) :
  (length (Fields line) < 6)%nat ->
  ParseEHR line = Panic (IndexOutOfRange (length (Fields line)) (length (Fields line))).
Proof.
  intros Hlen. unfold ParseEHR.
  destruct (Fields line) as [|f0 [|f1 [|f2 [|f3 [|f4 [|f5 rest]]]]]];
    simpl in *; try reflexivity.
  lia.
Qed.

Lemma ParseEHR_long (line : list N) :
  (6 <= length (Fields line))%nat -> exists ehr, ParseEHR line = Ret ehr.
Proof.
  intros Hlen. unfold ParseEHR.
  destruct (Fields line) as [|f0 [|f1 [|f2 [|f3 [|f4 [|f5 rest]]]]]];
    simpl in Hlen; try lia.
  eexists. reflexivity.
Qed.

Lemma occurrences_nonneg (field : EHR -> list N) (V : list N) (lines : list (list N)) :
  0 <= occurrences field V lines <= Z.of_nat (length lines).
Proof.
  induction lines as [|line lines IH]; cbn [occurrences length]; [lia|].
  destruct (ParseEHR line) as [ehr| |]; try lia.
  destruct (decide (field ehr = V)); lia.
Qed.

Lemma count_incr_lookup (counts : gmap (list N) Z) (key V : list N) :
  count_incr counts key !! V
  = if decide (key = V) then Some (wrap64 (default 0 (counts !! V) + 1))
    else counts !! V.
Proof.
  unfold count_incr. destruct (decide (key = V)) as [<-|Hne].
  - now rewrite lookup_insert_eq.
  - now rewrite lookup_insert_ne.
Qed.

Lemma tally_lookup (lines : list (list N)) (d0 t0 d t : gmap (list N) Z) (V : list N) :
  tally lines d0 t0 = Ret (d, t) ->
  d !! V = (if occurrences Diagnosis V lines =? 0 then d0 !! V
            else Some (wrap64 (default 0 (d0 !! V) + occurrences Diagnosis V lines)))
  /\ t !! V = (if occurrences Treatment V lines =? 0 then t0 !! V
               else Some (wrap64 (default 0 (t0 !! V) + occurrences Treatment V lines))).
Proof.
  revert d0 t0. induction lines as [|line lines IH]; intros d0 t0 H.
  - injection H as <- <-. auto.
  - cbn [tally occurrences] in *.
    destruct (ParseEHR line) as [ehr| |]; try discriminate H. cbn [bind] in H.
    destruct (IH _ _ H) as [Hd Ht]. rewrite Hd, Ht, !count_incr_lookup.
    pose proof (occurrences_nonneg Diagnosis V lines) as [Hnd _].
    pose proof (occurrences_nonneg Treatment V lines) as [Hnt _].
    split.
    + destruct (decide (Diagnosis ehr = V)) as [_|_].
      * destruct (Z.eqb_spec (occurrences Diagnosis V lines) 0) as [->|Hne].
        -- reflexivity.
        -- destruct (Z.eqb_spec (1 + occurrences Diagnosis V lines) 0); [lia|].
           cbn [from_option]. unfold id. now rewrite wrap64_add_l, Z.add_assoc.
      * reflexivity.
    + destruct (decide (Treatment ehr = V)) as [_|_].
      * destruct (Z.eqb_spec (occurrences Treatment V lines) 0) as [->|Hne].
        -- reflexivity.
        -- destruct (Z.eqb_spec (1 + occurrences Treatment V lines) 0); [lia|].
           cbn [from_option]. unfold id. now rewrite wrap64_add_l, Z.add_assoc.
      * reflexivity.
Qed.

(** X9. The tallies of a map task count records: after the scanning loop a
    value [V] is a key of the diagnosis table exactly if some line has it
    as its diagnosis, and its count is the number of such lines (the
    partition having fewer than 2^63 lines); likewise for treatments.  No
    key ever holds a zero. *)
Theorem tally_counts_records (lines : list (list N)) (d t : gmap (list N) Z) (V : list N) :
  tally lines ∅ ∅ = Ret (d, t) ->
  Z.of_nat (length lines) < 2 ^ 63 ->
  d !! V = (if occurrences Diagnosis V lines =? 0 then None
            else Some (occurrences Diagnosis V lines))
  /\ t !! V = (if occurrences Treatment V lines =? 0 then None
               else Some (occurrences Treatment V lines)).
Proof.
  intros H Hlen. destruct (tally_lookup lines ∅ ∅ d t V H) as [Hd Ht].
  rewrite Hd, Ht, !lookup_empty. cbn [from_option]. rewrite !Z.add_0_l.
  pose proof (occurrences_nonneg Diagnosis V lines).
  pose proof (occurrences_nonneg Treatment V lines).
  rewrite !wrap64_small by (unfold int64_range; lia). auto.
Qed.

Lemma tally_counts_records_witness :
  let lines := [runes "1 Ann Lee 30 flu rest"; runes "2 Bob Ray 41 flu pills";
                runes "3 Cy Dee 52 cold rest"] in
  exists d t,
    tally lines ∅ ∅ = Ret (d, t)
    /\ d !! runes "flu" = Some 2 /\ t !! runes "flu" = None.
Proof.
  intros lines.
  destruct (tally lines ∅ ∅) as [[d t]| |] eqn:H;
    [|exfalso; vm_compute in H; discriminate H
     |exfalso; vm_compute in H; discriminate H].
  exists d, t. split; [reflexivity|].
  exact (tally_counts_records lines d t (runes "flu") H eq_refl).
Defined.

Lemma tally_good_prefix (good : list (list N)) :
  Forall (fun l => (6 <= length (Fields l))%nat) good ->
  forall d t, exists d' t', forall more,
    tally (good ++ more) d t = tally more d' t'.
Proof.
  induction 1 as [|line good Hline _ IH]; intros d t.
  - now exists d, t.
  - destruct (ParseEHR_long line Hline) as [ehr Hp].
    destruct (IH (count_incr d (Diagnosis ehr)) (count_incr t (Treatment ehr)))
      as (d' & t' & Hrest).
    exists d', t'. intros more. cbn [app tally]. rewrite Hp. cbn [bind]. apply Hrest.
Qed.

Section MapTaskOutcomes.

Variable range_order : list (list N * Z) -> list (list N * Z).

(** X10. A partition whose first line of fewer than six tokens has [k] tokens
    makes the map task panic with index [k] out of range, whatever
    follows that line, even if reading the file would end in an error; it
    has written nothing by then. *)
Theorem MapTask_short_line_panics (filename : list N) (task : Z) (mr0 : MapReduce)
    (fs : FS) (f : file) (good rest : list (list N)) (bad : list N) :
  files fs !! filename = Some f ->
  scan_lines (content f) = good ++ bad :: rest ->
  Forall (fun l => (6 <= length (Fields l))%nat) good ->
  (length (Fields bad) < 6)%nat ->
  MapTask range_order filename task mr0 fs
  = (fs, Panic (IndexOutOfRange (length (Fields bad)) (length (Fields bad)))).
Proof.
  intros Hf Hlines Hgood Hbad. unfold MapTask, os_Open. rewrite Hf, Hlines.
  destruct (tally_good_prefix good Hgood ∅ ∅) as (d' & t' & ->).
  cbn [tally]. now rewrite (ParseEHR_short bad Hbad).
Qed.

(** X11. A partition that opens and reads to its end, all of whose lines have
    at least six tokens, is processed to success as long as the two
    intermediate files may be created: the map task reports [nil]. *)
Theorem MapTask_succeeds (filename : list N) (task : Z) (mr0 : MapReduce)
    (fs : FS) (f : file) :
  files fs !! filename = Some f ->
  read_fault f = false ->
  Forall (fun l => (6 <= length (Fields l))%nat) (scan_lines (content f)) ->
  diagnosis_filename filename task ∉ denied fs ->
  treatment_filename filename task ∉ denied fs ->
  (MapTask range_order filename task mr0 fs).2 = Ret None.
Proof.
  intros Hf Hfault Hlines Hd Ht. unfold MapTask, os_Open. rewrite Hf.
  destruct (tally_good_prefix _ Hlines ∅ ∅) as (d' & t' & Htally).
  specialize (Htally []). rewrite app_nil_r in Htally. rewrite Htally.
  cbn [tally]. rewrite Hfault. unfold os_Create at 1.
  destruct (decide (diagnosis_filename filename task ∈ denied fs)); [contradiction|].
  unfold os_Create. rewrite write_counts_denied. cbn [denied].
  destruct (decide (treatment_filename filename task ∈ denied fs)); [contradiction|].
  reflexivity.
Qed.

Lemma MapTask_denied (filename : list N) (task : Z) (mr0 : MapReduce) (fs : FS) :
  denied (MapTask range_order filename task mr0 fs).1 = denied fs.
Proof.
  unfold MapTask.
  destruct (os_Open fs filename) as [|f]; [reflexivity|].
  destruct (tally _ _ _) as [[d t]| |]; try reflexivity.
  destruct (read_fault f); [reflexivity|].
  destruct (os_Create fs _) as [|fs1] eqn:H1; [reflexivity|].
  apply os_Create_inv in H1 as (_ & _ & H1).
  destruct (os_Create (write_counts _ _ _ _) _) as [|fs3] eqn:H3; cbn [fst].
  - now rewrite write_counts_denied.
  - apply os_Create_inv in H3 as (_ & _ & H3).
    now rewrite write_counts_denied, H3, write_counts_denied.
Qed.

Lemma input_is_no_intermediate (filename : list N) (task : Z) :
  filename <> diagnosis_filename filename task
  /\ filename <> treatment_filename filename task.
Proof.
  split; intros H; apply (f_equal (@length N)) in H;
    unfold diagnosis_filename, treatment_filename in H;
    rewrite !length_app in H; cbn [runes length] in H; lia.
Qed.

(** X12. However a map task ends, it leaves every file other than its two
    intermediate files as it was -- its own partition included -- and does
    not change which names may be created. *)
Theorem MapTask_touches_only_its_files (filename : list N) (task : Z)
    (mr0 : MapReduce) (fs : FS) :
  let fs' := (MapTask range_order filename task mr0 fs).1 in
  (forall name, name <> diagnosis_filename filename task ->
                name <> treatment_filename filename task ->
                files fs' !! name = files fs !! name)
  /\ files fs' !! filename = files fs !! filename
  /\ denied fs' = denied fs.
Proof.
  intros fs'. subst fs'. split; [|split].
  - intros name Hd Ht. now apply MapTask_other_files.
  - destruct (input_is_no_intermediate filename task) as [Hd Ht].
    now apply MapTask_other_files.
  - apply MapTask_denied.
Qed.

End MapTaskOutcomes.

Lemma MapTask_short_line_panics_witness :
  MapTask (fun l => l) (runes "a.txt") 0 sample_mr short_line_partition
  = (short_line_partition, Panic (IndexOutOfRange 4 4)).
Proof.
  apply (MapTask_short_line_panics (fun l => l) (runes "a.txt") 0 sample_mr
           short_line_partition
           (text_file ["1 Ann Lee 30 flu rest"%string; "2 Bob Ray 41"%string])
           [runes "1 Ann Lee 30 flu rest"] [] (runes "2 Bob Ray 41")).
  - reflexivity.
  - reflexivity.
  - repeat (apply Forall_cons; split; [vm_compute; lia|]). constructor.
  - vm_compute. lia.
Defined.

Lemma MapTask_succeeds_witness :
  (MapTask (fun l => l) (runes "a.txt") 0 sample_mr two_partitions).2 = Ret None.
Proof.
  apply (MapTask_succeeds (fun l => l) (runes "a.txt") 0 sample_mr two_partitions
           (text_file ["1 Ann Lee 30 flu rest"%string; "2 Bob Ray 41 flu pills"%string;
                       "3 Cy Dee 52 cold rest"%string])).
  - reflexivity.
  - reflexivity.
  - repeat (apply Forall_cons; split; [vm_compute; lia|]). constructor.
  - vm_compute. set_solver.
  - vm_compute. set_solver.
Defined.


(** X13. The names of the files the tasks write never collide: the
    intermediate files of two tasks with different indices are four
    different files, the diagnosis file of a task is never a treatment
    file, and none of them is the report. *)
Theorem intermediate_names_distinct (f g : list N) (i j : nat) :
  (i <> j ->
   diagnosis_filename f (Z.of_nat i) <> diagnosis_filename g (Z.of_nat j)
   /\ treatment_filename f (Z.of_nat i) <> treatment_filename g (Z.of_nat j))
  /\ diagnosis_filename f (Z.of_nat i) <> treatment_filename g (Z.of_nat j)
  /\ diagnosis_filename f (Z.of_nat i) <> reduce_out
  /\ treatment_filename f (Z.of_nat i) <> reduce_out.
Proof.
  split; [|split; [|split]].
  - intros Hne. split; intros E.
    + apply diagnosis_filename_inj in E as [_ E]. contradiction.
    + apply treatment_filename_inj in E as [_ E]. contradiction.
  - apply diagnosis_treatment_names.
  - apply diagnosis_not_reduce_out.
  - apply treatment_not_reduce_out.
Qed.

(** ** The reduce task: missing files, bad configuration, running twice *)

Lemma reduce_files_prefix (mr0 : MapReduce) (fs : FS) (todo1 : list nat) :
  (forall i, In i todo1 ->
     exists filename, Files mr0 !! i = Some filename
       /\ readable fs (diagnosis_filename filename (Z.of_nat i))
       /\ readable fs (treatment_filename filename (Z.of_nat i))) ->
  forall d t, exists d' t', forall todo2,
    reduce_files mr0 fs (todo1 ++ todo2) d t = reduce_files mr0 fs todo2 d' t'.
Proof.
  induction todo1 as [|i todo1 IH]; intros H d t.
  - now exists d, t.
  - destruct (H i (or_introl eq_refl))
      as (filename & Hf & (df & Hdf & Hdr) & (tf & Htf & Htr)).
    destruct (IH (fun j Hj => H j (or_intror Hj))
                 (accumulate (scan_lines (content df)) d)
                 (accumulate (scan_lines (content tf)) t)) as (d' & t' & Hrest).
    exists d', t'. intros todo2. cbn [app reduce_files].
    rewrite (index_lookup _ _ _ Hf). cbn [bind].
    unfold os_Open. rewrite Hdf, Hdr, Htf, Htr. apply Hrest.
Qed.

Section ReduceTaskOutcomes.

Variable range_order : list (list N * Z) -> list (list N * Z).

(** X14. When the intermediate files of the tasks before task [i] can be read
    and the first file of task [i] that cannot be opened is [name] -- its
    diagnosis file, or its treatment file if the diagnosis file is fine --
    the reduce task reports the open error of [name] and leaves the
    directory as it was: no report is written. *)
Theorem ReduceTask_missing_file (task : Z) (mr0 : MapReduce) (fs : FS)
    (i : nat) (filename name : list N) :
  (i < Z.to_nat (NMap mr0))%nat ->
  (forall j, (j < i)%nat ->
     exists g, Files mr0 !! j = Some g
       /\ readable fs (diagnosis_filename g (Z.of_nat j))
       /\ readable fs (treatment_filename g (Z.of_nat j))) ->
  Files mr0 !! i = Some filename ->
  (name = diagnosis_filename filename (Z.of_nat i) /\ files fs !! name = None)
  \/ (name = treatment_filename filename (Z.of_nat i) /\ files fs !! name = None
      /\ readable fs (diagnosis_filename filename (Z.of_nat i))) ->
  ReduceTask range_order task mr0 fs = (fs, Ret (Some (OpenError name))).
Proof.
  intros Hi Hbefore Hf Hmissing. unfold ReduceTask.
  replace (Z.to_nat (NMap mr0)) with (i + S (Z.to_nat (NMap mr0) - S i))%nat by lia.
  rewrite seq_app. cbn [Nat.add seq].
  destruct (reduce_files_prefix mr0 fs (seq 0 i)) with (d := (∅ : gmap (list N) Z))
    (t := (∅ : gmap (list N) Z)) as (d' & t' & ->).
  { intros j Hj. apply Hbefore. apply in_seq in Hj. lia. }
  cbn [reduce_files]. rewrite (index_lookup _ _ _ Hf). cbn [bind]. unfold os_Open.
  destruct Hmissing as [[-> Hnone]|(-> & Hnone & (df & Hdf & Hdr))].
  - now rewrite Hnone.
  - now rewrite Hdf, Hdr, Hnone.
Qed.

(** X15. A configuration whose [NMap] exceeds the number of its [Files] makes
    the reduce task panic with an index out of range once it has read the
    files there are, and nothing is written. *)
Theorem ReduceTask_too_few_files (task : Z) (mr0 : MapReduce) (fs : FS) :
  (length (Files mr0) < Z.to_nat (NMap mr0))%nat ->
  (forall j, (j < length (Files mr0))%nat ->
     exists g, Files mr0 !! j = Some g
       /\ readable fs (diagnosis_filename g (Z.of_nat j))
       /\ readable fs (treatment_filename g (Z.of_nat j))) ->
  ReduceTask range_order task mr0 fs
  = (fs, Panic (IndexOutOfRange (length (Files mr0)) (length (Files mr0)))).
Proof.
  intros Hlen Hfiles. unfold ReduceTask.
  set (n := length (Files mr0)) in *.
  replace (Z.to_nat (NMap mr0)) with (n + S (Z.to_nat (NMap mr0) - S n))%nat by lia.
  rewrite seq_app. cbn [Nat.add seq].
  destruct (reduce_files_prefix mr0 fs (seq 0 n)) with (d := (∅ : gmap (list N) Z))
    (t := (∅ : gmap (list N) Z)) as (d' & t' & ->).
  { intros j Hj. apply Hfiles. apply in_seq in Hj. lia. }
  cbn [reduce_files]. rewrite (index_out_of_range (Files mr0) n) by (unfold n; lia).
  reflexivity.
Qed.

End ReduceTaskOutcomes.

Lemma ReduceTask_missing_file_witness :
  ReduceTask (fun l => l) 0 sample_mr two_partitions
  = (two_partitions, Ret (Some (OpenError (runes "map-diagnosis-a.txt-0.txt")))).
Proof.
  apply (ReduceTask_missing_file (fun l => l) 0 sample_mr two_partitions 0
           (runes "a.txt") (runes "map-diagnosis-a.txt-0.txt")).
  - vm_compute. lia.
  - intros j Hj. lia.
  - reflexivity.
  - left. split; [reflexivity | vm_compute; reflexivity].
Defined.

Lemma ReduceTask_too_few_files_witness :
  ReduceTask (fun l => l) 0 {| Files := []; NMap := 1; NReduce := 1 |} two_partitions
  = (two_partitions, Panic (IndexOutOfRange 0 0)).
Proof.
  apply (ReduceTask_too_few_files (fun l => l) 0
           {| Files := []; NMap := 1; NReduce := 1 |} two_partitions).
  - vm_compute. lia.
  - intros j Hj. cbn in Hj. lia.
Defined.



Section ReduceTaskTwice.

Variable range_order : list (list N * Z) -> list (list N * Z).



End ReduceTaskTwice.


(** ** Whole runs of [main] *)


Section MainOutcomes.

Variable range_order : list (list N * Z) -> list (list N * Z).
Variable schedule : list (nat * list N) -> list (nat * list N).


(** A reduce task that does not report [nil] leaves the directory as it
    found it. *)
Lemma ReduceTask_failure_keeps (task : Z) (mr0 : MapReduce) (fs fs' : FS)
    (r : outcome (option error)) :
  ReduceTask range_order task mr0 fs = (fs', r) -> r <> Ret None -> fs' = fs.
Proof.
  unfold ReduceTask.
  destruct (reduce_files _ _ _ _ _) as [[err|[d t]]| |]; try (now intros [= <- _]).
  destruct (os_Create fs reduce_out) as [|fs1]; [now intros [= <- _]|].
  intros [= _ <-] Hr. now contradiction Hr.
Qed.

(** X18. When the map phase has passed its barrier and the reduce task sends
    an error, [main] ends in [log.Fatal("Reduce task error:", err)] with
    the directory as the map phase left it: no report is written and
    [Done] is never called. *)
Theorem reduce_failure_aborts_run (fs fs1 fs2 : FS) (trace1 : list event)
    (results : list (option error)) (err : error) :
  map_phase range_order schedule fs = (fs1, trace1, Ret results) ->
  first_error results = None ->
  ReduceTask range_order 0 (run_config fs) fs1 = (fs2, Ret (Some err)) ->
  main range_order schedule None fs
  = (fs1, trace1 ++ [RanReduce 0], ExitFatal "Reduce task error:" err).
Proof.
  intros Hmap Hnone Hred.
  assert (fs2 = fs1) as -> by (eapply ReduceTask_failure_keeps; [exact Hred | discriminate]).
  unfold main. rewrite NewMaster_returns by (cbn; lia). rewrite Hmap, Hnone.
  cbn [run_config NReduce]. change (Z.to_nat 1) with 1%nat.
  cbn [seq map run_tasks]. change (Z.of_nat 0) with 0.
  fold (run_config fs). rewrite Hred. reflexivity.
Qed.

End MainOutcomes.

Lemma reduce_failure_aborts_run_witness :
  let phase := map_phase (fun l => l) (fun l => l) report_denied in
  first_error (match phase.2 with Ret results => results | _ => [] end) = None
  /\ main (fun l => l) (fun l => l) None report_denied
     = (phase.1.1, phase.1.2 ++ [RanReduce 0],
        ExitFatal "Reduce task error:" (CreateError reduce_out)).
Proof.
  intros phase.
  assert (Hres : phase.2 = Ret [None; None]) by (vm_compute; reflexivity).
  split; [rewrite Hres; reflexivity|].
  apply (reduce_failure_aborts_run (fun l => l) (fun l => l) report_denied
           phase.1.1 phase.1.1 phase.1.2 [None; None] (CreateError reduce_out)).
  - transitivity (phase.1.1, phase.1.2, phase.2); [|now rewrite Hres].
    subst phase. now destruct (map_phase _ _ _) as [[? ?] ?].
  - reflexivity.
  - vm_compute. reflexivity.
Defined.

(** ** The partitions [main] picks *)

Lemma has_prefix_spec (p s : list N) :
  has_prefix p s = true <-> exists r, s = p ++ r.
Proof.
  revert s. induction p as [|x p IH]; intros s; cbn [has_prefix].
  - split; [now exists s | reflexivity].
  - destruct s as [|y s].
    + split; [discriminate | intros [r Hr]; discriminate Hr].
    + rewrite andb_true_iff, IH, N.eqb_eq. split.
      * intros [-> [r ->]]. now exists r.
      * intros [r [= -> ->]]. split; [reflexivity | now exists r].
Qed.

(** [HasSuffix] holds exactly of the names that end in the suffix. *)
Lemma HasSuffix_spec (s suffix : list N) :
  HasSuffix s suffix = true <-> exists stem, s = stem ++ suffix.
Proof.
  unfold HasSuffix. rewrite has_prefix_spec. split.
  - intros [r Hr]. exists (rev r). apply (f_equal (@rev N)) in Hr.
    now rewrite rev_involutive, rev_app_distr, rev_involutive in Hr.
  - intros [stem ->]. exists (rev stem). now rewrite rev_app_distr.
Qed.

Lemma ReadDir_elem (fs : FS) (name : list N) :
  name ∈ ReadDir fs <-> is_Some (files fs !! name).
Proof.
  unfold ReadDir. rewrite merge_sort_Permutation, map_fmap, list_elem_of_fmap.
  split.
  - intros ([k f] & -> & Hin). apply elem_of_map_to_list in Hin. now exists f.
  - intros [f Hf]. exists (name, f). split; [reflexivity|].
    now apply elem_of_map_to_list.
Qed.

Lemma lex_leb_total (a b : list N) : lex_leb a b = true \/ lex_leb b a = true.
Proof.
  revert b. induction a as [|x a IH]; intros [|y b]; cbn [lex_leb]; auto.
  destruct (N.ltb_spec x y), (N.ltb_spec y x); auto; try lia.
  assert (x = y) as -> by lia. rewrite N.eqb_refl. apply IH.
Qed.

Lemma lex_leb_trans (a b c : list N) :
  lex_leb a b = true -> lex_leb b c = true -> lex_leb a c = true.
Proof.
  revert b c. induction a as [|x a IH]; intros [|y b] [|z c]; cbn [lex_leb];
    try reflexivity; try discriminate.
  destruct (N.ltb_spec x y) as [Hxy|Hxy].
  - intros _. destruct (N.ltb_spec y z) as [Hyz|Hyz].
    + intros _. destruct (N.ltb_spec x z); [reflexivity | lia].
    + destruct (N.eqb_spec y z) as [<-|]; [|discriminate]. intros _.
      destruct (N.ltb_spec x y); [reflexivity | lia].
  - destruct (N.eqb_spec x y) as [<-|]; [|discriminate]. intros Hab.
    destruct (N.ltb_spec x z) as [|Hxz]; [reflexivity|].
    destruct (N.eqb_spec x z) as [_|]; [|discriminate]. now apply IH.
Qed.

Lemma StronglySorted_filter_list {A} (R : relation A) (P : A -> Prop)
    `{forall x, Decision (P x)} (l : list A) :
  StronglySorted R l -> StronglySorted R (filter P l).
Proof.
  induction 1 as [|a l _ IH Hall]; [constructor|].
  rewrite filter_cons. destruct (decide (P a)); [|exact IH].
  constructor; [exact IH|].
  apply Forall_forall. intros x Hx. apply list_elem_of_filter in Hx as [_ Hx].
  rewrite Forall_forall in Hall. now apply Hall.
Qed.

Lemma txt_files_elem (fs : FS) (name : list N) :
  name ∈ txt_files fs <->
  is_Some (files fs !! name) /\ exists stem, name = stem ++ runes ".txt".
Proof.
  unfold txt_files.
  rewrite list_elem_of_filter, ReadDir_elem, Is_true_true, HasSuffix_spec. tauto.
Qed.

(** X19. The partitions of a run are exactly the names of the directory that
    end in ".txt", each once, in ascending order of their code points;
    task [i] gets the [i]-th of them. *)
Theorem txt_files_spec (fs : FS) :
  (forall name, name ∈ txt_files fs <->
                is_Some (files fs !! name) /\ exists stem, name = stem ++ runes ".txt")
  /\ NoDup (txt_files fs)
  /\ StronglySorted (fun a b => lex_leb a b = true) (txt_files fs)
  /\ Files (run_config fs) = txt_files fs
  /\ NMap (run_config fs) = Z.of_nat (length (txt_files fs)).
Proof.
  split; [|split; [|split; [|split; reflexivity]]].
  - apply txt_files_elem.
  - unfold txt_files. apply NoDup_filter. unfold ReadDir.
    rewrite merge_sort_Permutation, map_fmap. apply NoDup_fst_map_to_list.
  - unfold txt_files.
    assert (Hsorted : StronglySorted (fun a b => Is_true (lex_leb a b)) (ReadDir fs)).
    { unfold ReadDir. apply StronglySorted_merge_sort.
      - intros a b c Hab Hbc. apply Is_true_true. apply Is_true_true in Hab, Hbc.
        now apply (lex_leb_trans a b c).
      - intros a b. destruct (lex_leb_total a b) as [H|H];
          [left | right]; now apply Is_true_true. }
    pose proof (StronglySorted_filter_list _
                  (fun name => Is_true (HasSuffix name (runes ".txt")))
                  _ Hsorted) as Hs.
    induction Hs as [|a l _ IH Hall]; constructor; [exact IH|].
    eapply Forall_impl; [exact Hall|]. intros x Hx. now apply Is_true_true.
Qed.

(** ** Running [main] again in the same directory *)


Section SecondRun.

Variable range_order : list (list N * Z) -> list (list N * Z).
Variable schedule : list (nat * list N) -> list (nat * list N).
Hypothesis schedule_perm : forall l, schedule l ≡ₚ l.





End SecondRun.


(** ** Lines of the intermediate files, one at a time *)



Lemma Sscanf_error_zero (line key : list N) (count : Z) (err : scan_error) :
  Sscanf line = (key, count, Some err) -> count = 0.
Proof.
  unfold Sscanf. destruct (SkipSpace line) as [e|[|r s1]]; try (now intros [= _ <- _]).
  destruct (token (r :: s1)) as [value s2].
  destruct (SkipSpace s2) as [e|s3]; [now intros [= _ <- _]|].
  destruct (scanInt s3) as [e|[c rest]]; [now intros [= _ <- _] | discriminate].
Qed.

(** X22. A line that [Sscanf] cannot parse changes no total: the reduce task
    adds zero under the key it read so far, which at most creates that key
    with the count 0. *)
Theorem unparsed_line_adds_zero (line key : list N) (count : Z) (err : scan_error)
    (counts : gmap (list N) Z) :
  Sscanf line = (key, count, Some err) ->
  map_Forall (fun _ c => int64_range c) counts ->
  forall V, accumulate [line] counts !! V
            = if decide (V = key) then Some (default 0 (counts !! key))
              else counts !! V.
Proof.
  intros Hscan Hrange V. pose proof (Sscanf_error_zero _ _ _ _ Hscan) as ->.
  unfold accumulate. cbn [foldl]. rewrite Hscan. unfold count_add.
  destruct (decide (V = key)) as [->|Hne].
  - rewrite lookup_insert_eq, Z.add_0_r. f_equal. apply wrap64_small.
    destruct (counts !! key) as [c|] eqn:Hc; cbn [from_option].
    + exact (Hrange key c Hc).
    + unfold int64_range. lia.
  - now rewrite lookup_insert_ne.
Qed.

Lemma unparsed_line_adds_zero_witness :
  accumulate [runes "cold"] {[ runes "flu" := 2 ]} !! runes "flu" = Some 2
  /\ accumulate [runes "cold"] {[ runes "flu" := 2 ]} !! runes "cold" = Some 0.
Proof.
  assert (Hrange : map_Forall (fun (_ : list N) c => int64_range c)
                     ({[ runes "flu" := 2 ]} : gmap (list N) Z)).
  { apply map_Forall_singleton. unfold int64_range. lia. }
  pose proof (unparsed_line_adds_zero (runes "cold") (runes "cold") 0 ErrEOF
                {[ runes "flu" := 2 ]} eq_refl Hrange) as H.
  split.
  - rewrite (H (runes "flu")). reflexivity.
  - rewrite (H (runes "cold")). reflexivity.
Defined.

(** ** Barriers and empty inputs *)


Section Barrier.

Variable range_order : list (list N * Z) -> list (list N * Z).
Hypothesis range_order_perm : forall l, range_order l ≡ₚ l.
Variable schedule : list (nat * list N) -> list (nat * list N).
Hypothesis schedule_perm : forall l, schedule l ≡ₚ l.


Lemma range_order_nil : range_order [] = [].
Proof. apply Permutation_nil_r. apply range_order_perm. Qed.

(** X24. An empty partition is no error: its map task reports [nil] and
    leaves two empty intermediate files. *)
Theorem MapTask_empty_partition (filename : list N) (task : Z) (mr0 : MapReduce)
    (fs : FS) (f : file) :
  files fs !! filename = Some f ->
  content f = [] -> read_fault f = false ->
  diagnosis_filename filename task ∉ denied fs ->
  treatment_filename filename task ∉ denied fs ->
  let out := MapTask range_order filename task mr0 fs in
  out.2 = Ret None
  /\ files out.1 !! diagnosis_filename filename task
     = Some {| content := []; read_fault := false |}
  /\ files out.1 !! treatment_filename filename task
     = Some {| content := []; read_fault := false |}.
Proof.
  intros Hf Hcontent Hfault Hd Ht out. subst out.
  unfold MapTask, os_Open. rewrite Hf, Hcontent. cbn [scan_lines lines_from tally].
  rewrite Hfault.
  destruct (os_Create fs (diagnosis_filename filename task)) as [e|fs1] eqn:H1.
  { unfold os_Create in H1. now destruct (decide (_ ∈ denied fs)). }
  destruct (os_Create (write_counts range_order fs1 _ ∅) (treatment_filename filename task))
    as [e|fs3] eqn:H3.
  { unfold os_Create in H3. rewrite write_counts_denied in H3.
    apply os_Create_inv in H1 as (_ & _ & H1). rewrite H1 in H3.
    now destruct (decide (_ ∈ denied fs)). }
  cbn [fst snd]. split; [reflexivity|].
  rewrite (created_other _ _ _ _ _ _ H3)
    by (intros E; symmetry in E; revert E; apply diagnosis_treatment_names).
  rewrite (created_file _ _ _ _ _ H1), (created_file _ _ _ _ _ H3).
  rewrite map_to_list_empty, range_order_nil. auto.
Qed.

(** X25. A directory without partitions is no error either: [main] runs no
    map task, the reduce task succeeds, and the report consists of the two
    headers. *)
Theorem main_empty_directory (fs : FS) :
  txt_files fs = [] -> reduce_out ∉ denied fs ->
  exists fs2 report,
    main range_order schedule None fs = (fs2, [RanReduce 0], GoesToDone)
    /\ files fs2 !! reduce_out = Some report
    /\ scan_lines (content report)
       = [runes "Diagnosis Counts:"; runes "Treatment Counts:"].
Proof.
  intros Hnone Hden. unfold main. rewrite NewMaster_returns by (cbn; lia).
  unfold map_phase, run_config. rewrite Hnone. cbn [imap length].
  assert (Hs : schedule [] = []) by (apply Permutation_nil_r; apply schedule_perm).
  rewrite Hs. cbn [map run_tasks first_error NReduce].
  change (Z.to_nat 1) with 1%nat. cbn [seq map run_tasks].
  unfold ReduceTask at 1. cbn [NMap Z.of_nat Z.to_nat seq reduce_files].
  destruct (os_Create fs reduce_out) as [e|fs1] eqn:Hc.
  { unfold os_Create in Hc. now destruct (decide (_ ∈ denied fs)). }
  cbn [app first_error]. eexists. eexists.
  split; [reflexivity|].
  split; [apply (write_report_file range_order fs fs1 ∅ ∅ Hc)|].
  cbn [content]. rewrite map_to_list_empty, range_order_nil.
  reflexivity.
Qed.

End Barrier.


Lemma MapTask_empty_partition_witness :
  let out := MapTask (fun l => l) (runes "a.txt") 0 one_mr empty_partition in
  out.2 = Ret None
  /\ files out.1 !! diagnosis_filename (runes "a.txt") 0
     = Some {| content := []; read_fault := false |}
  /\ files out.1 !! treatment_filename (runes "a.txt") 0
     = Some {| content := []; read_fault := false |}.
Proof.
  apply (MapTask_empty_partition (fun l => l) (fun l => Permutation_refl l)
           (runes "a.txt") 0 one_mr empty_partition (text_file [])).
  - reflexivity.
  - reflexivity.
  - reflexivity.
  - vm_compute. set_solver.
  - vm_compute. set_solver.
Defined.

Lemma main_empty_directory_witness :
  exists fs2 report,
    main (fun l => l) (fun l => l) None empty_directory
    = (fs2, [RanReduce 0], GoesToDone)
    /\ files fs2 !! reduce_out = Some report
    /\ scan_lines (content report)
       = [runes "Diagnosis Counts:"; runes "Treatment Counts:"].
Proof.
  apply (main_empty_directory (fun l => l) (fun l => Permutation_refl l)
           (fun l => l) (fun l => Permutation_refl l) empty_directory).
  - vm_compute. reflexivity.
  - vm_compute. set_solver.
Defined.
